(** * Catch-up orchestration of indy-plenum: a shallow embedding of
    [plenum/server/catchup/node_leecher_service.py] and of the new-view
    batch reconstruction it is tested against. *)

From stdpp Require Import base gmap strings list.
From Stdlib Require Import ZArith Lia.

(* ------------------------------------------------------------------ *)
(** ** Constants and value types *)

(** Reserved ledger ids, [plenum.common.constants]. *)
Definition POOL_LEDGER_ID : Z := 0.
Definition AUDIT_LEDGER_ID : Z := 3.

(** [NodeLeecherService.State] *)
Inductive State := Idle | SyncingAudit | SyncingPool | SyncingOthers.

#[global] Instance State_eq_dec : EqDecision State.
Proof. solve_decision. Defined.

(** [plenum.server.catchup.utils.CatchupTill] *)
Record CatchupTill := mkCatchupTill {
  start_size : Z;
  final_size : Z;
  final_hash : option string;
  view_no : Z;
  pp_seq_no : Z
}.

(** A [ledgerRoot] value of an audit transaction: a literal hash (a
    Python [str]) or a back-reference (a Python [int]). *)
Inductive RootVal := RootHash (h : string) | RootRef (k : Z).

(** The [txn.data] part of an audit transaction.  The JSON dicts
    [ledgerSize] and [ledgerRoot] are association lists in their
    iteration order. *)
Record AuditTxnData := mkAuditTxnData {
  viewNo : Z;
  ppSeqNo : Z;
  ledgerSize : list (Z * Z);
  ledgerRoot : list (Z * RootVal)
}.

(** [dict.get] on a dict given as an association list. *)
Fixpoint dict_get {V} (k : Z) (d : list (Z * V)) : option V :=
  match d with
  | [] => None
  | (k', v) :: d' => if Z.eqb k k' then Some v else dict_get k d'
  end.

(** Modelled from the spec: the Ledger abstraction ([plenum.common.ledger],
    not under src/) as the provider exposes it: the committed transactions
    of the audit ledger (sequence numbers 1 .. size), the current size of
    every other ledger ([None] when the provider has no such ledger), and
    [Ledger.hashToStr(ledger.tree.merkle_tree_hash(0, n))] for a ledger
    id and a prefix length [n]. *)
Record Provider := mkProvider {
  audit_txns : list AuditTxnData;
  other_ledger_size : Z -> option Z;
  merkle_root_str : Z -> Z -> string
}.

Definition audit_size (p : Provider) : Z := Z.of_nat (length (audit_txns p)).

(** [provider.ledger(ledger_id).size] *)
Definition ledger_size (p : Provider) (lid : Z) : option Z :=
  if Z.eqb lid AUDIT_LEDGER_ID then Some (audit_size p) else other_ledger_size p lid.

(** [audit_ledger.getBySeqNo(n)]: 1-based, [None] out of range. *)
Definition getBySeqNo (p : Provider) (n : Z) : option AuditTxnData :=
  if Z.leb 1 n then audit_txns p !! Z.to_nat (n - 1) else None.

(** [audit_ledger.get_last_committed_txn()] *)
Definition get_last_committed_txn (p : Provider) : option AuditTxnData :=
  last (audit_txns p).

(* ------------------------------------------------------------------ *)
(** ** Service state, events and the observable log *)

(** Python exceptions that can escape a handler. *)
Inductive Exc := KeyError | ValueError | RuntimeError | AttributeError.

(** Inputs of the service: [register_ledger], [start] and a
    [LedgerCatchupComplete] routed from a leecher's outbox. *)
Inductive Event :=
| EvRegister (ledger_id : Z)
| EvStart (request_ledger_statuses : bool)
| EvCatchupComplete (ledger_id : Z) (num_caught_up : Z).

(** What an observer sees: each input with the [_state] it is handled in,
    calls to the leechers, messages put on [_output], and exceptions
    escaping a handler. *)
Inductive Action :=
| AHandle (s : State) (e : Event)
| ALeecherReset (ledger_id : Z)
| ALeecherStart (ledger_id : Z) (request_ledger_statuses : bool)
                (till : option CatchupTill)
| ANodeCatchupComplete
| ARaised (e : Exc).

(** The fields of [NodeLeecherService]; [_leechers] is represented by
    its keys in insertion order (the leechers themselves are external). *)
Record St := mkSt {
  _state : State;
  _catchup_till : gmap Z CatchupTill;
  _current_ledger : option Z;
  _leechers : list Z;
  out_log : list Action
}.

Definition init_st : St := mkSt Idle ∅ None [] [].

(* ------------------------------------------------------------------ *)
(** ** A state and exception monad *)

Inductive Outcome (A : Type) := Ok (a : A) | Raise (e : Exc).
Arguments Ok {A} a.
Arguments Raise {A} e.

Definition M (A : Type) : Type := St -> St * Outcome A.

Definition ret {A} (a : A) : M A := fun s => (s, Ok a).
Definition bind {A B} (c : M A) (k : A -> M B) : M B :=
  fun s => match c s with
           | (s', Ok a) => k a s'
           | (s', Raise e) => (s', Raise e)
           end.
Definition throw {A} (e : Exc) : M A := fun s => (s, Raise e).
Definition lift {A} (o : Outcome A) : M A := fun s => (s, o).
Definition get : M St := fun s => (s, Ok s).
Definition modify (f : St -> St) : M unit := fun s => (f s, Ok tt).

Notation "x <-- c ;; k" := (bind c (fun x => k))
  (at level 100, c at next level, right associativity).
Notation "c ;;; k" := (bind c (fun _ : unit => k))
  (at level 100, right associativity).

Fixpoint mapM_ {A} (f : A -> M unit) (l : list A) : M unit :=
  match l with
  | [] => ret tt
  | x :: l' => f x ;;; mapM_ f l'
  end.

Definition emit (a : Action) : M unit :=
  modify (fun s => mkSt (_state s) (_catchup_till s) (_current_ledger s)
                        (_leechers s) (out_log s ++ [a])).
Definition set_state (x : State) : M unit :=
  modify (fun s => mkSt x (_catchup_till s) (_current_ledger s)
                        (_leechers s) (out_log s)).
Definition set_catchup_till (m : gmap Z CatchupTill) : M unit :=
  modify (fun s => mkSt (_state s) m (_current_ledger s)
                        (_leechers s) (out_log s)).
Definition set_current_ledger (c : option Z) : M unit :=
  modify (fun s => mkSt (_state s) (_catchup_till s) c
                        (_leechers s) (out_log s)).
Definition set_leechers (ls : list Z) : M unit :=
  modify (fun s => mkSt (_state s) (_catchup_till s) (_current_ledger s)
                        ls (out_log s)).

(* ------------------------------------------------------------------ *)
(** ** Python list helpers *)

(** [l.remove(x)]: drops the first occurrence, [ValueError] if absent. *)
Fixpoint py_remove (x : Z) (l : list Z) : Outcome (list Z) :=
  match l with
  | [] => Raise ValueError
  | y :: l' =>
      if Z.eqb x y then Ok l'
      else match py_remove x l' with
           | Ok r => Ok (y :: r)
           | Raise e => Raise e
           end
  end.

(** [l.index(x)]: position of the first occurrence, [ValueError] if absent. *)
Fixpoint py_index (x : Z) (l : list Z) : Outcome nat :=
  match l with
  | [] => Raise ValueError
  | y :: l' =>
      if Z.eqb x y then Ok 0%nat
      else match py_index x l' with
           | Ok i => Ok (S i)
           | Raise e => Raise e
           end
  end.

(* ------------------------------------------------------------------ *)
(** ** NodeLeecherService *)

Section Service.

Variable provider : Provider.

(** [register_ledger]: a dict assignment; a new key goes last, an
    existing key keeps its place. *)
Definition register_ledger (ledger_id : Z) : M unit :=
  s <-- get ;;
  if bool_decide (ledger_id ∈ _leechers s) then ret tt
  else set_leechers (_leechers s ++ [ledger_id]).

(** [self._leechers[ledger_id]]: [KeyError] for an unregistered id. *)
Definition leecher (ledger_id : Z) : M unit :=
  s <-- get ;;
  if bool_decide (ledger_id ∈ _leechers s) then ret tt else throw KeyError.

(** [start] *)
Definition start (request_ledger_statuses : bool) : M unit :=
  s <-- get ;;
  mapM_ (fun l => emit (ALeecherReset l)) (_leechers s) ;;;
  set_state SyncingAudit ;;;
  set_catchup_till ∅ ;;;
  leecher AUDIT_LEDGER_ID ;;;
  emit (ALeecherStart AUDIT_LEDGER_ID request_ledger_statuses None).

(** [_get_next_ledger], over the keys of [_leechers]. *)
Definition get_next_ledger (keys : list Z) (ledger_id : option Z)
    : Outcome (option Z) :=
  match py_remove AUDIT_LEDGER_ID keys with
  | Raise e => Raise e
  | Ok ids1 =>
      match py_remove POOL_LEDGER_ID ids1 with
      | Raise e => Raise e
      | Ok ledger_ids =>
          if Nat.eqb (length ledger_ids) 0 then Ok None
          else match ledger_id with
               | None => Ok (head ledger_ids)
               | Some l =>
                   match py_index l ledger_ids with
                   | Raise e => Raise e
                   | Ok i =>
                       if Nat.eqb (S i) (length ledger_ids) then Ok None
                       else Ok (ledger_ids !! S i)
                   end
               end
      end
  end.

(** [_catchup_ledger] *)
Definition catchup_ledger (ledger_id : Z) : M unit :=
  leecher ledger_id ;;;
  s <-- get ;;
  match _catchup_till s !! ledger_id with
  | None => emit (ALeecherStart ledger_id true None)
  | Some till => emit (ALeecherStart ledger_id false (Some till))
  end.

(** [_sync_next_ledger] *)
Definition sync_next_ledger : M unit :=
  s <-- get ;;
  nxt <-- lift (get_next_ledger (_leechers s) (_current_ledger s)) ;;
  set_current_ledger nxt ;;;
  match nxt with
  | Some l => catchup_ledger l
  | None => set_state Idle ;;; emit ANodeCatchupComplete
  end.

(** The body of one iteration of the loop of [_calc_catchup_till]:
    the [final_hash] of [ledger_id], given its [final_size] and its
    current size [size]. *)
Definition resolve_final_hash (txn : AuditTxnData) (ledger_id final_size size : Z)
    : Outcome (option string) :=
  match dict_get ledger_id (ledgerRoot txn) with
  | None =>
      if negb (Z.eqb final_size size) then Raise RuntimeError
      else Ok (if Z.ltb 0 final_size
               then Some (merkle_root_str provider ledger_id final_size)
               else None)
  | Some (RootHash h) => Ok (Some h)
  | Some (RootRef k) =>
      match getBySeqNo provider (audit_size provider - k) with
      | None => Raise RuntimeError
      | Some audit_txn =>
          match dict_get ledger_id (ledgerRoot audit_txn) with
          | Some (RootHash h) => Ok (Some h)
          | _ => Raise RuntimeError
          end
      end
  end.

Definition calc_one (txn : AuditTxnData) (entry : Z * Z) : M unit :=
  let '(ledger_id, final_size) := entry in
  match ledger_size provider ledger_id with
  | None => throw AttributeError
  | Some size =>
      h <-- lift (resolve_final_hash txn ledger_id final_size size) ;;
      s <-- get ;;
      set_catchup_till
        (<[ledger_id := mkCatchupTill size final_size h
                                      (viewNo txn) (ppSeqNo txn)]>
           (_catchup_till s))
  end.

(** [_calc_catchup_till] *)
Definition calc_catchup_till : M unit :=
  match get_last_committed_txn provider with
  | None => ret tt
  | Some txn => mapM_ (calc_one txn) (ledgerSize txn)
  end.

Definition on_audit_synced (ledger_id : Z) : M unit :=
  if Z.eqb ledger_id AUDIT_LEDGER_ID
  then calc_catchup_till ;;; set_state SyncingPool ;;;
       catchup_ledger POOL_LEDGER_ID
  else ret tt.

Definition on_pool_synced (ledger_id : Z) : M unit :=
  if Z.eqb ledger_id POOL_LEDGER_ID
  then set_state SyncingOthers ;;; sync_next_ledger
  else ret tt.

Definition on_other_synced (ledger_id : Z) : M unit :=
  s <-- get ;;
  if bool_decide (Some ledger_id = _current_ledger s)
  then sync_next_ledger
  else ret tt.

(** [_on_ledger_catchup_complete]; the warnings are not modelled. *)
Definition on_ledger_catchup_complete (ledger_id : Z) : M unit :=
  s <-- get ;;
  match _state s with
  | SyncingAudit => on_audit_synced ledger_id
  | SyncingPool => on_pool_synced ledger_id
  | SyncingOthers => on_other_synced ledger_id
  | Idle => ret tt
  end.

(** One input, recorded with the state it is handled in.  (The copy of
    each leecher message that line 45 forwards to [output] is not
    modelled.) *)
Definition handle (ev : Event) : M unit :=
  s <-- get ;;
  emit (AHandle (_state s) ev) ;;;
  match ev with
  | EvRegister l => register_ledger l
  | EvStart b => start b
  | EvCatchupComplete l _ => on_ledger_catchup_complete l
  end.

(** An exception aborts the handler; the mutations made before it stay. *)
Definition run_event (s : St) (ev : Event) : St :=
  match handle ev s with
  | (s', Ok _) => s'
  | (s', Raise e) =>
      mkSt (_state s') (_catchup_till s') (_current_ledger s')
           (_leechers s') (out_log s' ++ [ARaised e])
  end.

Definition run (evs : list Event) (s : St) : St := fold_left run_event evs s.

End Service.

(* ------------------------------------------------------------------ *)
(** ** New-view batch reconstruction *)

(** [plenum.server.consensus.batch_id.BatchID] *)
Record BatchID := mkBatchID {
  b_view_no : Z;
  b_pp_seq_no : Z;
  b_digest : string
}.

#[global] Instance BatchID_eq_dec : EqDecision BatchID.
Proof. solve_decision. Defined.

(** A [ViewChange] vote: what one validator pre-prepared (in order) and
    prepared. *)
Record ViewChangeVote := mkViewChangeVote {
  preprepared : list BatchID;
  prepared : list BatchID
}.

Record Checkpoint := mkCheckpoint {
  seq_no_start : Z;
  seq_no_end : Z;
  cp_digest : string
}.

(** Modelled from the spec: [Quorums] (not under src/); the strong
    quorum for a faulty tolerance [f] is [2f+1]. *)
Definition strong_quorum (f : nat) : nat := 2 * f + 1.

(** Modelled from the spec: the batch a vote pre-prepared at [pp_seq_no]. *)
Definition batch_at (v : ViewChangeVote) (pp : Z) : option BatchID :=
  List.find (fun b => Z.eqb (b_pp_seq_no b) pp) (preprepared v).

(** Modelled from the spec: how many votes pre-prepared [b] at [pp], and
    how many prepared [b]. *)
Definition count_preprepared (votes : list ViewChangeVote) (pp : Z) (b : BatchID) : nat :=
  length (List.filter (fun v => bool_decide (batch_at v pp = Some b)) votes).

Definition count_prepared (votes : list ViewChangeVote) (b : BatchID) : nat :=
  length (List.filter (fun v => bool_decide (b ∈ prepared v)) votes).

(** Modelled from the spec (NewViewBuilder, not under src/): the batch at
    [pp] that a quorum [q] of votes pre-prepared identically at that
    position and that a quorum [q] of votes prepared, if any. *)
Definition certified_batch (q : nat) (votes : list ViewChangeVote) (pp : Z)
    : option BatchID :=
  List.find (fun b => bool_decide (q <= count_preprepared votes pp b)%nat &&
                      bool_decide (q <= count_prepared votes b)%nat)
            (omap (fun v => batch_at v pp) votes).

Fixpoint collect_batches (q : nat) (votes : list ViewChangeVote) (fuel : nat) (pp : Z)
    : list BatchID :=
  match fuel with
  | O => []
  | S fuel' =>
      match certified_batch q votes pp with
      | None => []
      | Some b => b :: collect_batches q votes fuel' (pp + 1)
      end
  end.

(** The largest [pp_seq_no] pre-prepared by any vote: no position beyond
    it can be certified, so the walk needs no more steps. *)
Definition max_pp_seq_no (votes : list ViewChangeVote) : Z :=
  foldr Z.max 0%Z (map b_pp_seq_no (concat (map preprepared votes))).

(** Modelled from the spec: [NewViewBuilder.calc_batches] (not under
    src/): from [checkpoint.seq_no_end + 1] on, collect the certified
    batch of each successive position and stop at the first position
    without one. *)
Definition calc_batches (f : nat) (cp : Checkpoint) (votes : list ViewChangeVote)
    : list BatchID :=
  collect_batches (strong_quorum f) votes
    (Z.to_nat (max_pp_seq_no votes - seq_no_end cp))
    (seq_no_end cp + 1).

(** A batch certified at [pp] by a quorum [q], in the spec's words. *)
Definition quorum_certified (q : nat) (votes : list ViewChangeVote) (pp : Z)
    (b : BatchID) : Prop :=
  (q <= count_preprepared votes pp b)%nat /\ (q <= count_prepared votes b)%nat.


(* ------------------------------------------------------------------ *)
(** ** Runs from construction *)

(** The states a service reaches from [__init__] by any sequence of
    inputs, registrations included. *)
Definition reachable (p : Provider) (s : St) : Prop :=
  exists evs, s = run p evs init_st.

(** A computation keeps a state predicate, whatever its outcome. *)
Definition preserves {A} (P : St -> Prop) (c : M A) : Prop :=
  forall s s' r, P s -> c s = (s', r) -> P s'.

(** The shape of the leecher registry: keys are distinct, and a current
    ledger is a registered key other than Audit and Pool, registered
    together with both of them. *)
Definition registry_inv (s : St) : Prop :=
  NoDup (_leechers s) /\
  forall c, _current_ledger s = Some c ->
    AUDIT_LEDGER_ID ∈ _leechers s /\ POOL_LEDGER_ID ∈ _leechers s /\
    c ∈ _leechers s /\ c <> AUDIT_LEDGER_ID /\ c <> POOL_LEDGER_ID.

(** No [start()] among the recorded inputs. *)
Definition no_restart (l : list Action) : Prop :=
  forall s b, AHandle s (EvStart b) ∉ l.

(** A monitor over the log for the ordering of a round: the flags say
    whether, since the last [start()], an Audit completion was handled in
    [SyncingAudit] and a Pool completion in [SyncingPool]; a leecher start
    of a non-Audit ledger without the first, or of a ledger other than
    Audit and Pool without the second, is a violation ([None]). *)
Definition mon_step (f : bool * bool) (x : Action) : option (bool * bool) :=
  let '(a, q) := f in
  match x with
  | AHandle _ (EvStart _) => Some (false, false)
  | AHandle SyncingAudit (EvCatchupComplete lid _) =>
      Some (a || Z.eqb lid AUDIT_LEDGER_ID, q)
  | AHandle SyncingPool (EvCatchupComplete lid _) =>
      Some (a, q || Z.eqb lid POOL_LEDGER_ID)
  | ALeecherStart lid _ _ =>
      if (Z.eqb lid AUDIT_LEDGER_ID || a) &&
         (Z.eqb lid AUDIT_LEDGER_ID || Z.eqb lid POOL_LEDGER_ID || q)
      then Some (a, q) else None
  | _ => Some (a, q)
  end.

Fixpoint monitor (f : bool * bool) (l : list Action) : option (bool * bool) :=
  match l with
  | [] => Some f
  | x :: l' => match mon_step f x with
               | Some f' => monitor f' l'
               | None => None
               end
  end.

(** The monitor accepts the log so far, and the state agrees with its
    flags: [SyncingPool] and [SyncingOthers] only after an Audit
    completion of this round, [SyncingOthers] only after a Pool one. *)
Definition round_inv (s : St) : Prop :=
  exists a q, monitor (false, false) (out_log s) = Some (a, q) /\
    (_state s = SyncingPool -> a = true) /\
    (_state s = SyncingOthers -> a = true /\ q = true).

(* ------------------------------------------------------------------ *)
(** ** Concrete inputs *)

(** An audit ledger of size 3: transaction #1 holds the literal root "H"
    of ledger 1, transaction #2 refers one back, transaction #3 two back. *)
Definition ex_txn1 : AuditTxnData := (mkAuditTxnData 0 1 [(1, 5)] [(1, RootHash "H")])%Z.
Definition ex_txn2 : AuditTxnData := (mkAuditTxnData 0 2 [(1, 5)] [(1, RootRef 1)])%Z.
Definition ex_txn3 : AuditTxnData :=
  (mkAuditTxnData 0 3 [(1, 5); (0, 2)] [(1, RootRef 2); (0, RootHash "P")])%Z.
Definition ex_provider : Provider :=
  mkProvider [ex_txn1; ex_txn2; ex_txn3] (fun _ => Some 0%Z) (fun _ _ => "M"%string).

(** An audit ledger whose back-reference lands on a transaction that
    recorded another size (4) for ledger 1 than the last one (5). *)
Definition mism_txn1 : AuditTxnData := (mkAuditTxnData 0 1 [(1, 4)] [(1, RootHash "H")])%Z.
Definition mism_txn2 : AuditTxnData := (mkAuditTxnData 0 2 [(1, 5)] [(1, RootRef 1)])%Z.
Definition mism_provider : Provider :=
  mkProvider [mism_txn1; mism_txn2] (fun _ => Some 0%Z) (fun _ _ => "M"%string).

(** An audit ledger whose only transaction refers five transactions
    back, past its start. *)
Definition dangling_provider : Provider :=
  mkProvider [(mkAuditTxnData 0 1 [(1, 5)] [(1, RootRef 5)])%Z]
             (fun _ => Some 0%Z) (fun _ _ => "M"%string).

(** A local ledger 1 of size 10 ahead of the audit ledger's size 5. *)
Definition ahead_provider : Provider :=
  mkProvider [(mkAuditTxnData 0 1 [(1, 5)] [(1, RootHash "h")])%Z]
             (fun _ => Some 10%Z) (fun _ _ => "M"%string).

(** Registration of the four usual ledgers and a round up to the first
    other ledger. *)
Definition ex_register : list Event :=
  [EvRegister AUDIT_LEDGER_ID; EvRegister POOL_LEDGER_ID; EvRegister 1; EvRegister 2]%Z.
Definition ex_round : list Event :=
  [EvStart true; EvCatchupComplete AUDIT_LEDGER_ID 0;
   EvCatchupComplete POOL_LEDGER_ID 0]%Z.

(** The log of [ex_register ++ ex_round] up to the start of ledger 1,
    and the target that start carries. *)
Definition ex_round_log_prefix : list Action :=
  ([AHandle Idle (EvRegister 3); AHandle Idle (EvRegister 0);
    AHandle Idle (EvRegister 1); AHandle Idle (EvRegister 2);
    AHandle Idle (EvStart true); ALeecherReset 3; ALeecherReset 0;
    ALeecherReset 1; ALeecherReset 2; ALeecherStart 3 true None;
    AHandle SyncingAudit (EvCatchupComplete 3 0);
    ALeecherStart 0 false (Some (mkCatchupTill 0 2 (Some "P") 0 3));
    AHandle SyncingPool (EvCatchupComplete 0 0)])%Z.

Definition ex_till_1 : CatchupTill := (mkCatchupTill 0 5 (Some "H") 0 3)%Z.

(** Four votes ([f = 1]) over a checkpoint ending at 0: batches 1 and 2
    are certified, batch 3 is pre-prepared by three votes but prepared
    by one, and the fourth vote holds another batch at position 2. *)
Definition ex_b1 : BatchID := mkBatchID 0 1 "a".
Definition ex_b2 : BatchID := mkBatchID 0 2 "b".
Definition ex_b3 : BatchID := mkBatchID 0 3 "c".
Definition ex_b2' : BatchID := mkBatchID 0 2 "x".
Definition ex_votes : list ViewChangeVote :=
  [mkViewChangeVote [ex_b1; ex_b2; ex_b3] [ex_b1; ex_b2; ex_b3];
   mkViewChangeVote [ex_b1; ex_b2; ex_b3] [ex_b1; ex_b2];
   mkViewChangeVote [ex_b1; ex_b2; ex_b3] [ex_b1; ex_b2];
   mkViewChangeVote [ex_b1; ex_b2'] [ex_b1]].
Definition ex_cp : Checkpoint := mkCheckpoint 0 0 "cp".

(* ------------------------------------------------------------------ *)
(** ** [calc_committed] of test_sim_view_change.py *)

(** The exceptions [calc_committed] can raise: its [assert] and the
    [BatchID( *None)] of a loop over no votes. *)
Inductive TestExc := AssertionError | TypeError.

Section CalcCommitted.

(** A pre-prepare entry of a [ViewChange] message, compared with [==];
    [pp2 e] is its item [e[2]], the [pp_seq_no]. *)
Context {Entry : Type} `{EqDecision Entry}.
Variable pp2 : Entry -> Z.

Record VCMsg := mkVCMsg {
  vc_preprepared : list Entry;
  vc_prepared : list Entry
}.

(** The inner [for pp in vc.preprepared] loop: the first entry whose
    item 2 is [pp_seq_no] ([break] after it). *)
Fixpoint find_pp (pp_seq_no : Z) (l : list Entry) : option Entry :=
  match l with
  | [] => None
  | e :: l' => if Z.eqb (pp2 e) pp_seq_no then Some e else find_pp pp_seq_no l'
  end.

(** What the loop over the votes of one [pp_seq_no] ends in: an
    exception, the [return committed], or the [batch_id] it leaves. *)
Inductive Scan := ScanRaise (e : TestExc) | ScanReturn | ScanDone (b : option Entry).

Fixpoint scan_votes (pp_seq_no : Z) (batch_id : option Entry) (vcs : list VCMsg) : Scan :=
  match vcs with
  | [] => ScanDone batch_id
  | vc :: vcs' =>
      match find_pp pp_seq_no (vc_preprepared vc) with
      | Some e =>
          match batch_id with
          | None =>
              if bool_decide (e ∈ vc_prepared vc)
              then scan_votes pp_seq_no (Some e) vcs' else ScanReturn
          | Some b =>
              if bool_decide (b = e) then
                if bool_decide (b ∈ vc_prepared vc)
                then scan_votes pp_seq_no (Some b) vcs' else ScanReturn
              else ScanRaise AssertionError
          end
      | None =>
          match batch_id with
          | None => ScanReturn
          | Some b =>
              if bool_decide (b ∈ vc_prepared vc)
              then scan_votes pp_seq_no (Some b) vcs' else ScanReturn
          end
      end
  end.

(** The outer [for pp_seq_no in range(1, 50)] loop. *)
Fixpoint committed_loop (pps : list Z) (vcs : list VCMsg) (committed : list Entry)
    : TestExc + list Entry :=
  match pps with
  | [] => inr committed
  | pp_seq_no :: pps' =>
      match scan_votes pp_seq_no None vcs with
      | ScanRaise e => inl e
      | ScanReturn => inr committed
      | ScanDone None => inl TypeError
      | ScanDone (Some b) => committed_loop pps' vcs (committed ++ [b])
      end
  end.

Definition calc_committed (view_changes : list VCMsg) : TestExc + list Entry :=
  committed_loop (map Z.of_nat (seq 1 49)) view_changes [].

(** Position [pp] is agreed on with entry [b]: the first vote
    pre-prepared [b] there, every vote that pre-prepared the position has
    [b] as its first entry there, and every vote prepared [b]. *)
Definition agreed (vcs : list VCMsg) (pp : Z) (b : Entry) : Prop :=
  (exists v vcs', vcs = v :: vcs' /\ find_pp pp (vc_preprepared v) = Some b) /\
  forall v, v ∈ vcs ->
    b ∈ vc_prepared v /\
    (find_pp pp (vc_preprepared v) = None \/ find_pp pp (vc_preprepared v) = Some b).

(** Two votes whose first entries at position [pp] differ. *)
Definition disagree (vcs : list VCMsg) (pp : Z) : Prop :=
  exists v1 v2 b1 b2, v1 ∈ vcs /\ v2 ∈ vcs /\
    find_pp pp (vc_preprepared v1) = Some b1 /\
    find_pp pp (vc_preprepared v2) = Some b2 /\ b1 <> b2.

(** All votes fit [b] at [pp]: each prepared [b], and each pre-prepared
    nothing or [b] there. *)
Definition fits (vcs : list VCMsg) (pp : Z) (b : Entry) : Prop :=
  forall v, v ∈ vcs ->
    b ∈ vc_prepared v /\
    (find_pp pp (vc_preprepared v) = None \/ find_pp pp (vc_preprepared v) = Some b).

End CalcCommitted.

Arguments mkVCMsg {Entry}.
Arguments ScanRaise {Entry}.
Arguments ScanReturn {Entry}.
Arguments ScanDone {Entry}.

(** Concrete view changes: an entry is [(view_no, ?, pp_seq_no, digest)]. *)
Definition ex_pp_entry : Type := (Z * Z * Z * string)%type.
Definition ex_pp2 (e : ex_pp_entry) : Z := snd (fst e).
Definition ex_e1 : ex_pp_entry := (0, 0, 1, "a")%Z.
Definition ex_e2 : ex_pp_entry := (0, 0, 2, "b")%Z.
Definition ex_e3 : ex_pp_entry := (0, 0, 3, "c")%Z.
(** Pre-prepared 1..3, prepared only 1..2. *)
Definition ex_vc1 : VCMsg := mkVCMsg [ex_e1; ex_e2; ex_e3] [ex_e1; ex_e2].
(** Pre-prepared and prepared 1..3. *)
Definition ex_vc_full : VCMsg := mkVCMsg [ex_e1; ex_e2; ex_e3] [ex_e1; ex_e2; ex_e3].
(** Another digest at position 2. *)
Definition ex_vc_other : VCMsg := mkVCMsg [ex_e1; (0, 0, 2, "x")%Z] [ex_e1].

(* ------------------------------------------------------------------ *)
(** ** Observations over the log *)


(** The ids of the leechers started, in order. *)
Definition started_ids (l : list Action) : list Z :=
  omap (fun a => match a with ALeecherStart lid _ _ => Some lid | _ => None end) l.

(** How many [NodeCatchupComplete] messages were put on the output. *)
Definition node_completions (l : list Action) : nat :=
  length (List.filter (fun a => match a with ANodeCatchupComplete => true | _ => false end) l).

(** A monitor for the completions of rounds: the flag says the round has
    already been reported complete (or none was started); [start()] clears
    it, and a [NodeCatchupComplete] while it is set is a violation. *)
Definition done_step (d : bool) (x : Action) : option bool :=
  match x with
  | AHandle _ (EvStart _) => Some false
  | ANodeCatchupComplete => if d then None else Some true
  | _ => Some d
  end.

Fixpoint done_monitor (d : bool) (l : list Action) : option bool :=
  match l with
  | [] => Some d
  | x :: l' => match done_step d x with
               | Some d' => done_monitor d' l'
               | None => None
               end
  end.

(** The invariant of runs from construction: the completion monitor
    accepts the log and its flag is only set in [Idle]; [Idle] has no
    current ledger; every leecher started is registered. *)
Definition svc_inv (s : St) : Prop :=
  (exists d, done_monitor true (out_log s) = Some d /\ (d = true -> _state s = Idle)) /\
  (_state s = Idle -> _current_ledger s = None) /\
  (forall l b t, ALeecherStart l b t ∈ out_log s -> l ∈ _leechers s).

(** The start [_catchup_ledger] gives a leecher, after its registry check. *)
Definition start_action (s : St) (l : Z) : Action :=
  match _catchup_till s !! l with
  | None => ALeecherStart l true None
  | Some till => ALeecherStart l false (Some till)
  end.

(* ================================================================== *)
(** * Properties *)

(** ** Monad and loop lemmas *)

Lemma bind_ok {A B} (c : M A) (k : A -> M B) s s' a :
  c s = (s', Ok a) -> bind c k s = k a s'.
Proof. unfold bind. intros ->. reflexivity. Qed.

Lemma bind_raise {A B} (c : M A) (k : A -> M B) s s' e :
  c s = (s', Raise e) -> bind c k s = (s', Raise e).
Proof. unfold bind. intros ->. reflexivity. Qed.

Lemma mapM_app {A} (f : A -> M unit) l1 l2 s :
  mapM_ f (l1 ++ l2) s =
  match mapM_ f l1 s with
  | (s', Ok _) => mapM_ f l2 s'
  | (s', Raise e) => (s', Raise e)
  end.
Proof.
  revert s. induction l1 as [|x l1 IH]; intros s; simpl.
  - reflexivity.
  - unfold bind. destruct (f x s) as [s1 [[]|e]]; [apply IH | reflexivity].
Qed.

Ltac unfold_monad :=
  unfold emit, set_state, set_catchup_till, set_current_ledger, set_leechers,
    bind, ret, throw, lift, get, modify in *.

(** ** C3: a completion the current state does not expect is inert *)

(** C3: in every state, a [LedgerCatchupComplete] for a ledger other than
    the expected one (Audit in [SyncingAudit], Pool in [SyncingPool], the
    current ledger in [SyncingOthers], anything in [Idle]) is only
    recorded as handled: [_state], [_catchup_till] and the other fields are
    unchanged, no leecher is started, and nothing is raised. *)
Theorem C3_unexpected_completion_inert (p : Provider) (st : St) (lid n : Z) :
  (_state st = Idle \/
   (_state st = SyncingAudit /\ lid <> AUDIT_LEDGER_ID) \/
   (_state st = SyncingPool /\ lid <> POOL_LEDGER_ID) \/
   (_state st = SyncingOthers /\ _current_ledger st <> Some lid)) ->
  handle p (EvCatchupComplete lid n) st =
  (mkSt (_state st) (_catchup_till st) (_current_ledger st) (_leechers st)
        (out_log st ++ [AHandle (_state st) (EvCatchupComplete lid n)]),
   Ok tt).
Proof.
  destruct st as [stt till cur ls lg]; simpl.
  intros H. unfold handle, on_ledger_catchup_complete, on_audit_synced,
    on_pool_synced, on_other_synced. unfold_monad. simpl.
  destruct H as [-> | [[-> Hne] | [[-> Hne] | [-> Hne]]]]; simpl.
  - reflexivity.
  - rewrite (proj2 (Z.eqb_neq _ _) Hne). reflexivity.
  - rewrite (proj2 (Z.eqb_neq _ _) Hne). reflexivity.
  - rewrite bool_decide_false by congruence. reflexivity.
Qed.

Lemma C3_witness :
  let st := mkSt SyncingAudit ∅ None [AUDIT_LEDGER_ID; POOL_LEDGER_ID] [] in
  handle (mkProvider [] (fun _ => Some 0%Z) (fun _ _ => ""%string))
         (EvCatchupComplete POOL_LEDGER_ID 0) st =
  (mkSt SyncingAudit ∅ None [AUDIT_LEDGER_ID; POOL_LEDGER_ID]
        [AHandle SyncingAudit (EvCatchupComplete POOL_LEDGER_ID 0)], Ok tt).
Proof.
  intros st. apply (C3_unexpected_completion_inert _ st).
  right. left. split; [reflexivity | vm_compute; congruence].
Defined.

(** ** Target derivation *)

Lemma calc_one_eq (p : Provider) (t : AuditTxnData) (lid fs : Z) (s : St) :
  calc_one p t (lid, fs) s =
  match ledger_size p lid with
  | None => (s, Raise AttributeError)
  | Some sz =>
      match resolve_final_hash p t lid fs sz with
      | Ok h =>
          (mkSt (_state s)
                (<[lid := mkCatchupTill sz fs h (viewNo t) (ppSeqNo t)]> (_catchup_till s))
                (_current_ledger s) (_leechers s) (out_log s), Ok tt)
      | Raise e => (s, Raise e)
      end
  end.
Proof.
  unfold calc_one. destruct (ledger_size p lid); [|reflexivity].
  unfold_monad. destruct (resolve_final_hash p t lid fs z); reflexivity.
Qed.

(** The loop only writes [_catchup_till], and only at the ids it visits. *)
Lemma calc_loop_frame (p : Provider) (t : AuditTxnData) es s s' r :
  mapM_ (calc_one p t) es s = (s', r) ->
  _state s' = _state s /\ _current_ledger s' = _current_ledger s /\
  _leechers s' = _leechers s /\ out_log s' = out_log s /\
  (forall L, L ∉ map fst es -> _catchup_till s' !! L = _catchup_till s !! L).
Proof.
  revert s. induction es as [|[lid fs] es IH]; intros s H; cbn [mapM_] in H.
  - unfold ret in H. injection H as <- _. repeat split; auto.
  - unfold bind in H. rewrite calc_one_eq in H.
    destruct (ledger_size p lid) as [sz|];
      [|injection H as <- _; repeat split; auto].
    destruct (resolve_final_hash p t lid fs sz) as [h|e];
      [|injection H as <- _; repeat split; auto].
    apply IH in H as (H1 & H2 & H3 & H4 & H5). simpl in *.
    repeat split; auto. intros L HL. rewrite H5 by set_solver.
    simpl. apply lookup_insert_ne. set_solver.
Qed.

(** Every entry present after the loop was there before, or was recorded
    from one visited [(ledger_id, final_size)] pair. *)
Lemma calc_loop_entries (p : Provider) (t : AuditTxnData) es s s' r :
  mapM_ (calc_one p t) es s = (s', r) ->
  forall L till, _catchup_till s' !! L = Some till ->
  _catchup_till s !! L = Some till \/
  exists fs, (L, fs) ∈ es /\ ledger_size p L = Some (start_size till) /\
    final_size till = fs /\
    resolve_final_hash p t L fs (start_size till) = Ok (final_hash till) /\
    view_no till = viewNo t /\ pp_seq_no till = ppSeqNo t.
Proof.
  revert s. induction es as [|[lid fs] es IH]; intros s H L till HL; cbn [mapM_] in H.
  - unfold ret in H. injection H as <- _. auto.
  - unfold bind in H. rewrite calc_one_eq in H.
    destruct (ledger_size p lid) as [sz|] eqn:Hsz;
      [|injection H as <- _; auto].
    destruct (resolve_final_hash p t lid fs sz) as [h|e] eqn:Hr;
      [|injection H as <- _; auto].
    destruct (IH _ H L till HL) as [Hin | (fs' & Hm & Hrest)].
    + simpl in Hin. destruct (decide (lid = L)) as [<-|Hne].
      * rewrite lookup_insert_eq in Hin. injection Hin as <-.
        right. exists fs. simpl. repeat split; auto. set_solver.
      * rewrite lookup_insert_ne in Hin by done. auto.
    + right. exists fs'. split; [set_solver | exact Hrest].
Qed.

(** A loop that ran to the end recorded every visited id. *)
Lemma calc_loop_ok (p : Provider) (t : AuditTxnData) es s s' :
  mapM_ (calc_one p t) es s = (s', Ok tt) ->
  forall L, L ∈ map fst es ->
  exists fs sz h, (L, fs) ∈ es /\ ledger_size p L = Some sz /\
    resolve_final_hash p t L fs sz = Ok h /\
    _catchup_till s' !! L = Some (mkCatchupTill sz fs h (viewNo t) (ppSeqNo t)).
Proof.
  revert s. induction es as [|[lid fs] es IH]; intros s H L HL; cbn [mapM_ map fst] in *.
  - set_solver.
  - unfold bind in H. rewrite calc_one_eq in H.
    destruct (ledger_size p lid) as [sz|] eqn:Hsz; [|discriminate].
    destruct (resolve_final_hash p t lid fs sz) as [h|e] eqn:Hr; [|discriminate].
    destruct (decide (L ∈ map fst es)) as [Hin|Hout].
    + destruct (IH _ H L Hin) as (fs' & sz' & h' & Hm & Hrest).
      exists fs', sz', h'. split; [set_solver | exact Hrest].
    + assert (L = lid) as -> by set_solver.
      exists fs, sz, h. repeat split; auto; [set_solver|].
      apply calc_loop_frame in H as (_ & _ & _ & _ & H5).
      rewrite H5 by done. simpl. apply lookup_insert_eq.
Qed.

Lemma calc_catchup_till_split (p : Provider) (t : AuditTxnData) pre L fs post st st1 :
  get_last_committed_txn p = Some t ->
  ledgerSize t = pre ++ (L, fs) :: post ->
  mapM_ (calc_one p t) pre st = (st1, Ok tt) ->
  calc_catchup_till p st =
  match calc_one p t (L, fs) st1 with
  | (s2, Ok _) => mapM_ (calc_one p t) post s2
  | (s2, Raise e) => (s2, Raise e)
  end.
Proof.
  intros Hlast Hls Hpre. unfold calc_catchup_till. rewrite Hlast, Hls, mapM_app, Hpre.
  simpl. unfold bind. reflexivity.
Qed.

Lemma resolve_backref (p : Provider) (t : AuditTxnData) L k fs sz h :
  dict_get L (ledgerRoot t) = Some (RootRef k) ->
  resolve_final_hash p t L fs sz = Ok h ->
  exists t' h', getBySeqNo p (audit_size p - k) = Some t' /\
    dict_get L (ledgerRoot t') = Some (RootHash h') /\ h = Some h'.
Proof.
  unfold resolve_final_hash. intros -> Hr.
  destruct (getBySeqNo p (audit_size p - k)) as [t'|]; [|discriminate].
  destruct (dict_get L (ledgerRoot t')) as [[h'|k']|] eqn:E; try discriminate.
  injection Hr as <-. exists t', h'. auto.
Qed.

(** C5: when the last committed audit transaction gives ledger [L] the
    back-reference [k] and the derivation completes, the target recorded
    for [L] has as [final_hash] the literal [ledgerRoot[L]] of the audit
    transaction at sequence number [audit_ledger.size - k]. *)
Theorem C5_backref_resolution (p : Provider) (t : AuditTxnData) (L k : Z) (st st' : St) :
  get_last_committed_txn p = Some t ->
  dict_get L (ledgerRoot t) = Some (RootRef k) ->
  L ∈ map fst (ledgerSize t) ->
  calc_catchup_till p st = (st', Ok tt) ->
  exists till t' h,
    _catchup_till st' !! L = Some till /\
    getBySeqNo p (audit_size p - k) = Some t' /\
    dict_get L (ledgerRoot t') = Some (RootHash h) /\
    final_hash till = Some h.
Proof.
  intros Hlast Hroot HL Hcalc. unfold calc_catchup_till in Hcalc.
  rewrite Hlast in Hcalc.
  destruct (calc_loop_ok p t _ _ _ Hcalc L HL) as (fs & sz & h & _ & _ & Hr & Hlook).
  destruct (resolve_backref p t L k fs sz h Hroot Hr) as (t' & h' & Hget & Hr' & ->).
  exists (mkCatchupTill sz fs (Some h') (viewNo t) (ppSeqNo t)), t', h'.
  auto.
Qed.

(** The spec's example: audit ledger of size 3, transaction #3 refers two
    back for ledger 1, transaction #1 holds "H". *)
Lemma C5_witness :
  exists till t' h,
    _catchup_till (fst (calc_catchup_till ex_provider init_st)) !! 1%Z = Some till /\
    getBySeqNo ex_provider (audit_size ex_provider - 2) = Some t' /\
    dict_get 1%Z (ledgerRoot t') = Some (RootHash h) /\
    final_hash till = Some h.
Proof.
  apply (C5_backref_resolution ex_provider ex_txn3 1 2 init_st).
  - reflexivity.
  - reflexivity.
  - vm_compute. left.
  - reflexivity.
Defined.

Lemma C5_example_hash :
  fmap final_hash (_catchup_till (fst (calc_catchup_till ex_provider init_st)) !! 1%Z)
  = Some (Some "H"%string).
Proof. vm_compute. reflexivity. Qed.

(** C6: for a ledger [L] listed in [ledgerSize] with [final_size] [fs] but
    absent from [ledgerRoot], once the derivation reaches [L] it raises the
    fatal error exactly when [fs] differs from [L]'s local size [sz];
    otherwise it records for [L] the hash of [L]'s own merkle tree over
    [[0, fs)] ([None] when [fs] is 0) and goes on with the next entries. *)
Theorem C6_absent_root (p : Provider) (t : AuditTxnData) pre (L fs : Z) post (sz : Z)
    (st st1 : St) :
  get_last_committed_txn p = Some t ->
  ledgerSize t = pre ++ (L, fs) :: post ->
  dict_get L (ledgerRoot t) = None ->
  ledger_size p L = Some sz ->
  mapM_ (calc_one p t) pre st = (st1, Ok tt) ->
  (fs <> sz -> calc_catchup_till p st = (st1, Raise RuntimeError)) /\
  (fs = sz ->
   calc_catchup_till p st =
   mapM_ (calc_one p t) post
     (mkSt (_state st1)
           (<[L := mkCatchupTill sz fs
                     (if Z.ltb 0 fs then Some (merkle_root_str p L fs) else None)
                     (viewNo t) (ppSeqNo t)]> (_catchup_till st1))
           (_current_ledger st1) (_leechers st1) (out_log st1))).
Proof.
  intros Hlast Hls Hroot Hsz Hpre.
  rewrite (calc_catchup_till_split p t pre L fs post st st1 Hlast Hls Hpre).
  rewrite calc_one_eq, Hsz. unfold resolve_final_hash. rewrite Hroot.
  split; intros Hfs.
  - rewrite (proj2 (Z.eqb_neq _ _) Hfs). reflexivity.
  - rewrite (proj2 (Z.eqb_eq _ _) Hfs). reflexivity.
Qed.

Lemma C6_witness :
  let p := mkProvider [(mkAuditTxnData 0 1 [(1, 5)] [])%Z]
                      (fun _ => Some 5%Z) (fun _ _ => "M"%string) in
  let t := (mkAuditTxnData 0 1 [(1, 5)] [])%Z in
  (5 <> 5 -> calc_catchup_till p init_st = (init_st, Raise RuntimeError))%Z /\
  (5 = 5 ->
   calc_catchup_till p init_st =
   mapM_ (calc_one p t) []
     (mkSt Idle (<[1%Z := mkCatchupTill 5 5 (Some "M"%string) 0 1]> ∅)
           None [] []))%Z.
Proof.
  intros p t.
  apply (C6_absent_root p t [] 1 5 [] 5 init_st init_st);
    reflexivity.
Defined.

(** C2, as the spec states it, fails: a back-reference landing on a
    transaction whose [ledgerSize[1]] is 4, while the last transaction
    says 5, raises nothing, and ledger 1 gets a target. *)
Lemma C2_counterexample :
  calc_catchup_till mism_provider init_st =
  (mkSt Idle (<[1%Z := mkCatchupTill 0 5 (Some "H"%string) 0 2]> ∅) None [] [],
   Ok tt) /\
  dict_get 1%Z (ledgerSize mism_txn1) = Some 4%Z /\
  dict_get 1%Z (ledgerSize mism_txn2) = Some 5%Z.
Proof. vm_compute. repeat split. Qed.

(** C2 (amended): for a ledger [L] whose [ledgerRoot] entry is a
    back-reference [k], once the derivation reaches [L] it raises the fatal
    error exactly when the audit transaction at [audit_ledger.size - k] is
    missing or has no literal hash for [L]; if it has one, that hash is
    recorded for [L], whatever the [ledgerSize] of that transaction. *)
Theorem C2_backref_checks (p : Provider) (t : AuditTxnData) pre (L fs : Z) post (k sz : Z)
    (st st1 : St) :
  get_last_committed_txn p = Some t ->
  ledgerSize t = pre ++ (L, fs) :: post ->
  dict_get L (ledgerRoot t) = Some (RootRef k) ->
  ledger_size p L = Some sz ->
  mapM_ (calc_one p t) pre st = (st1, Ok tt) ->
  (getBySeqNo p (audit_size p - k) = None ->
   calc_catchup_till p st = (st1, Raise RuntimeError)) /\
  (forall t', getBySeqNo p (audit_size p - k) = Some t' ->
   (forall h, dict_get L (ledgerRoot t') <> Some (RootHash h)) ->
   calc_catchup_till p st = (st1, Raise RuntimeError)) /\
  (forall t' h, getBySeqNo p (audit_size p - k) = Some t' ->
   dict_get L (ledgerRoot t') = Some (RootHash h) ->
   calc_catchup_till p st =
   mapM_ (calc_one p t) post
     (mkSt (_state st1)
           (<[L := mkCatchupTill sz fs (Some h) (viewNo t) (ppSeqNo t)]>
              (_catchup_till st1))
           (_current_ledger st1) (_leechers st1) (out_log st1))).
Proof.
  intros Hlast Hls Hroot Hsz Hpre.
  rewrite (calc_catchup_till_split p t pre L fs post st st1 Hlast Hls Hpre).
  rewrite calc_one_eq, Hsz. unfold resolve_final_hash. rewrite Hroot.
  split; [|split].
  - intros ->. reflexivity.
  - intros t' -> Hno.
    destruct (dict_get L (ledgerRoot t')) as [[h|k']|]; [|reflexivity..].
    exfalso. exact (Hno h eq_refl).
  - intros t' h -> ->. reflexivity.
Qed.

Lemma C2_witness :
  (getBySeqNo mism_provider (audit_size mism_provider - 1) = None ->
   calc_catchup_till mism_provider init_st = (init_st, Raise RuntimeError)) /\
  (forall t', getBySeqNo mism_provider (audit_size mism_provider - 1) = Some t' ->
   (forall h, dict_get 1%Z (ledgerRoot t') <> Some (RootHash h)) ->
   calc_catchup_till mism_provider init_st = (init_st, Raise RuntimeError)) /\
  (forall t' h, getBySeqNo mism_provider (audit_size mism_provider - 1) = Some t' ->
   dict_get 1%Z (ledgerRoot t') = Some (RootHash h) ->
   calc_catchup_till mism_provider init_st =
   mapM_ (calc_one mism_provider mism_txn2) []
     (mkSt Idle (<[1%Z := mkCatchupTill 0 5 (Some h) 0 2]> ∅) None [] [])).
Proof.
  apply (C2_backref_checks mism_provider mism_txn2 [] 1 5 [] 1 0 init_st init_st);
    reflexivity.
Defined.

(** C7, as the spec states it, fails: a local ledger ahead of the audit
    transaction gets a target with [start_size] 10 above [final_size] 5. *)
Lemma C7_counterexample :
  _catchup_till (fst (calc_catchup_till ahead_provider init_st)) !! 1%Z
  = Some (mkCatchupTill 10 5 (Some "h"%string) 0 1) /\
  snd (calc_catchup_till ahead_provider init_st) = Ok tt /\
  (5 < 10)%Z.
Proof. vm_compute. repeat split. Qed.

(** C7 (amended): every target the derivation leaves in [_catchup_till]
    (whether it completes or raises) that was not there before has as
    [start_size] the ledger's current local size and as [final_size] the
    size from the last committed audit transaction, with no order imposed
    between them; only for a ledger absent from [ledgerRoot] are they equal. *)
Theorem C7_recorded_sizes (p : Provider) (t : AuditTxnData) (st st' : St)
    (r : Outcome unit) (L : Z) (till : CatchupTill) :
  get_last_committed_txn p = Some t ->
  calc_catchup_till p st = (st', r) ->
  _catchup_till st !! L = None ->
  _catchup_till st' !! L = Some till ->
  (L, final_size till) ∈ ledgerSize t /\
  ledger_size p L = Some (start_size till) /\
  (dict_get L (ledgerRoot t) = None -> start_size till = final_size till).
Proof.
  intros Hlast Hcalc Hnone Hsome. unfold calc_catchup_till in Hcalc.
  rewrite Hlast in Hcalc.
  destruct (calc_loop_entries p t _ _ _ _ Hcalc L till Hsome)
    as [Hold | (fs & Hin & Hsz & <- & Hr & _)]; [congruence|].
  repeat split; auto. intros Hroot.
  unfold resolve_final_hash in Hr. rewrite Hroot in Hr.
  destruct (Z.eqb (final_size till) (start_size till)) eqn:E; [|discriminate].
  symmetry. apply Z.eqb_eq. exact E.
Qed.

Lemma C7_witness :
  ((1, 5) ∈ ledgerSize (mkAuditTxnData 0 1 [(1, 5)] [(1, RootHash "h")]) /\
   ledger_size ahead_provider 1 = Some 10 /\
   (dict_get 1 (ledgerRoot (mkAuditTxnData 0 1 [(1, 5)] [(1, RootHash "h")])) = None ->
    10 = 5))%Z.
Proof.
  apply (C7_recorded_sizes ahead_provider _ init_st
           (fst (calc_catchup_till ahead_provider init_st))
           (snd (calc_catchup_till ahead_provider init_st)) 1
           (mkCatchupTill 10 5 (Some "h"%string) 0 1)); vm_compute; reflexivity.
Defined.

(** ** [_get_next_ledger] *)

Lemma py_remove_absent (x : Z) (l : list Z) :
  x ∉ l -> py_remove x l = Raise ValueError.
Proof.
  induction l as [|y l IH]; intros Hx; simpl; [reflexivity|].
  destruct (Z.eqb_spec x y) as [->|Hne]; [set_solver|].
  rewrite IH by set_solver. reflexivity.
Qed.

Lemma py_remove_ok_in (x : Z) (l l' : list Z) :
  py_remove x l = Ok l' -> x ∈ l.
Proof.
  revert l'. induction l as [|y l IH]; intros l' H; simpl in H; [discriminate|].
  destruct (Z.eqb_spec x y) as [->|Hne]; [set_solver|].
  destruct (py_remove x l) as [r|e] eqn:E; [|discriminate].
  specialize (IH r eq_refl). set_solver.
Qed.

Lemma py_remove_nodup (x : Z) (l : list Z) :
  NoDup l -> x ∈ l -> py_remove x l = Ok (filter (fun y => y <> x) l).
Proof.
  induction l as [|y l IH]; intros Hnd Hx; [set_solver|].
  apply NoDup_cons in Hnd as [Hy Hnd]. simpl.
  destruct (Z.eqb_spec x y) as [->|Hne].
  - rewrite filter_cons_False by tauto. f_equal.
    clear IH Hx Hnd. induction l as [|z l IHl]; [reflexivity|].
    rewrite filter_cons_True by set_solver. f_equal. apply IHl. set_solver.
  - rewrite IH by set_solver. rewrite filter_cons_True by congruence.
    reflexivity.
Qed.

Lemma py_index_app (x : Z) (pre rest : list Z) :
  x ∉ pre -> py_index x (pre ++ x :: rest) = Ok (length pre).
Proof.
  induction pre as [|y pre IH]; intros Hx; simpl.
  - rewrite Z.eqb_refl. reflexivity.
  - destruct (Z.eqb_spec x y) as [->|Hne]; [set_solver|].
    rewrite IH by set_solver. reflexivity.
Qed.

Lemma audit_ne_pool : AUDIT_LEDGER_ID <> POOL_LEDGER_ID.
Proof. unfold AUDIT_LEDGER_ID, POOL_LEDGER_ID. lia. Qed.

(** With both reserved ids registered, [_get_next_ledger] walks the other
    keys in insertion order. *)
Lemma get_next_ledger_others (keys : list Z) :
  NoDup keys -> AUDIT_LEDGER_ID ∈ keys -> POOL_LEDGER_ID ∈ keys ->
  exists others,
    others = filter (fun x => x <> AUDIT_LEDGER_ID /\ x <> POOL_LEDGER_ID) keys /\
    forall cur, get_next_ledger keys cur =
      if Nat.eqb (length others) 0 then Ok None
      else match cur with
           | None => Ok (head others)
           | Some l =>
               match py_index l others with
               | Raise e => Raise e
               | Ok i => if Nat.eqb (S i) (length others) then Ok None
                         else Ok (others !! S i)
               end
           end.
Proof.
  intros Hnd HA HP.
  exists (filter (fun x => x <> AUDIT_LEDGER_ID /\ x <> POOL_LEDGER_ID) keys).
  split; [reflexivity|]. intros cur. unfold get_next_ledger.
  rewrite (py_remove_nodup _ _ Hnd HA).
  rewrite py_remove_nodup.
  - rewrite list_filter_filter.
    rewrite (list_filter_iff _ (fun x => x <> AUDIT_LEDGER_ID /\ x <> POOL_LEDGER_ID))
      by (intros; tauto).
    reflexivity.
  - by apply NoDup_filter.
  - apply list_elem_of_filter. split; [|done]. intros H. apply audit_ne_pool. auto.
Qed.

Lemma get_next_ledger_some (keys : list Z) (cur : option Z) (n : Z) :
  NoDup keys -> get_next_ledger keys cur = Ok (Some n) ->
  AUDIT_LEDGER_ID ∈ keys /\ POOL_LEDGER_ID ∈ keys /\ n ∈ keys /\
  n <> AUDIT_LEDGER_ID /\ n <> POOL_LEDGER_ID.
Proof.
  intros Hnd H.
  destruct (py_remove AUDIT_LEDGER_ID keys) as [l1|e] eqn:E1.
  2:{ unfold get_next_ledger in H. rewrite E1 in H. discriminate. }
  pose proof (py_remove_ok_in _ _ _ E1) as HA.
  destruct (py_remove POOL_LEDGER_ID l1) as [l2|e] eqn:E2.
  2:{ unfold get_next_ledger in H. rewrite E1, E2 in H. discriminate. }
  pose proof (py_remove_ok_in _ _ _ E2) as HP1.
  rewrite (py_remove_nodup _ _ Hnd HA) in E1. injection E1 as <-.
  apply list_elem_of_filter in HP1 as [_ HP].
  destruct (get_next_ledger_others keys Hnd HA HP) as (others & -> & Hnext).
  rewrite Hnext in H.
  assert (n ∈ filter (fun x => x <> AUDIT_LEDGER_ID /\ x <> POOL_LEDGER_ID) keys)
    as Hn%list_elem_of_filter.
  { destruct (Nat.eqb _ 0); [discriminate|].
    destruct cur as [c|].
    - destruct (py_index c _) as [i|e]; [|discriminate].
      destruct (Nat.eqb _ _); [discriminate|].
      injection H as Hi. eapply list_elem_of_lookup_2. exact Hi.
    - injection H as Hh. destruct (filter _ keys) as [|z zs]; [discriminate|].
      simpl in Hh. subst. set_solver. }
  tauto.
Qed.

Lemma py_remove_raise (x : Z) (l : list Z) (e : Exc) :
  py_remove x l = Raise e -> e = ValueError.
Proof.
  induction l as [|y l IH]; simpl; [congruence|].
  destruct (Z.eqb x y); [discriminate|].
  destruct (py_remove x l); [discriminate|]. auto.
Qed.

Lemma py_remove_sub (x : Z) (l l' : list Z) :
  py_remove x l = Ok l' -> forall y, y ∈ l' -> y ∈ l.
Proof.
  revert l'. induction l as [|z l IH]; intros l' H y Hy; simpl in H; [discriminate|].
  destruct (Z.eqb x z); [injection H as <-; set_solver|].
  destruct (py_remove x l) as [r|e] eqn:E; [|discriminate].
  injection H as <-. apply elem_of_cons in Hy as [->|Hy]; [set_solver|].
  specialize (IH r eq_refl y Hy). set_solver.
Qed.

Lemma get_next_ledger_missing (keys : list Z) (cur : option Z) :
  AUDIT_LEDGER_ID ∉ keys \/ POOL_LEDGER_ID ∉ keys ->
  get_next_ledger keys cur = Raise ValueError.
Proof.
  intros H. unfold get_next_ledger.
  destruct (py_remove AUDIT_LEDGER_ID keys) as [l1|e] eqn:E1.
  - assert (POOL_LEDGER_ID ∉ l1) as HP.
    { destruct H as [HA|HP].
      + exfalso. exact (HA (py_remove_ok_in _ _ _ E1)).
      + intros Hin. exact (HP (py_remove_sub _ _ _ E1 _ Hin)). }
    rewrite (py_remove_absent _ _ HP). reflexivity.
  - rewrite (py_remove_raise _ _ _ E1). reflexivity.
Qed.

(** ** [start] *)

Lemma reset_all_eq (ls : list Z) (s : St) :
  mapM_ (fun l => emit (ALeecherReset l)) ls s =
  (mkSt (_state s) (_catchup_till s) (_current_ledger s) (_leechers s)
        (out_log s ++ map ALeecherReset ls), Ok tt).
Proof.
  revert s. induction ls as [|x ls IH]; intros s; simpl.
  - unfold ret. rewrite app_nil_r. destruct s; reflexivity.
  - unfold bind at 1. unfold emit at 1, modify at 1. rewrite IH. simpl.
    rewrite <- app_assoc. reflexivity.
Qed.

(** [start] resets every leecher in order, sets [SyncingAudit], empties
    [_catchup_till], leaves [_current_ledger] as it was, and starts the
    Audit leecher ([KeyError] when there is none). *)
Lemma start_eq (p : Provider) (b : bool) (s : St) :
  start b s =
  if bool_decide (AUDIT_LEDGER_ID ∈ _leechers s)
  then (mkSt SyncingAudit ∅ (_current_ledger s) (_leechers s)
          (out_log s ++ map ALeecherReset (_leechers s) ++
           [ALeecherStart AUDIT_LEDGER_ID b None]), Ok tt)
  else (mkSt SyncingAudit ∅ (_current_ledger s) (_leechers s)
          (out_log s ++ map ALeecherReset (_leechers s)), Raise KeyError).
Proof.
  unfold start. unfold bind at 1. unfold get at 1.
  unfold bind at 1. rewrite reset_all_eq.
  unfold leecher. unfold_monad. simpl.
  destruct (bool_decide _); simpl; [|reflexivity].
  unfold modify. simpl. rewrite <- app_assoc. reflexivity.
Qed.

(** ** C10: the reserved ledgers must be registered *)

(** C10: when Audit or Pool was never registered, a valid Pool completion
    (in [SyncingPool]) and a valid other completion (for the current ledger
    in [SyncingOthers]) make the handler raise [ValueError] out of
    [_get_next_ledger] instead of being ignored, and [start()] raises
    [KeyError] when Audit is not registered. *)
Theorem C10_reserved_ledgers_required (p : Provider) (s : St) (n : Z) (b : bool) :
  AUDIT_LEDGER_ID ∉ _leechers s \/ POOL_LEDGER_ID ∉ _leechers s ->
  (_state s = SyncingPool ->
   snd (handle p (EvCatchupComplete POOL_LEDGER_ID n) s) = Raise ValueError) /\
  (forall c, _state s = SyncingOthers -> _current_ledger s = Some c ->
   snd (handle p (EvCatchupComplete c n) s) = Raise ValueError) /\
  (AUDIT_LEDGER_ID ∉ _leechers s ->
   snd (handle p (EvStart b) s) = Raise KeyError).
Proof.
  intros Hmiss. split; [|split].
  - intros Hst. destruct s as [stt till cur ls lg]; simpl in *. subst stt.
    unfold handle, on_ledger_catchup_complete, on_pool_synced,
      sync_next_ledger. unfold_monad. simpl.
    rewrite get_next_ledger_missing by exact Hmiss. reflexivity.
  - intros c Hst Hcur. destruct s as [stt till cur ls lg]; simpl in *. subst.
    unfold handle, on_ledger_catchup_complete, on_other_synced,
      sync_next_ledger. unfold_monad. simpl.
    rewrite bool_decide_true by reflexivity.
    rewrite get_next_ledger_missing by exact Hmiss. reflexivity.
  - intros HA. unfold handle. unfold bind at 1. unfold get at 1.
    unfold bind at 1. unfold emit, modify.
    rewrite (start_eq p). simpl.
    rewrite bool_decide_false by exact HA. reflexivity.
Qed.

Lemma C10_witness :
  let s := mkSt SyncingPool ∅ None [AUDIT_LEDGER_ID] [] in
  (_state s = SyncingPool ->
   snd (handle ex_provider (EvCatchupComplete POOL_LEDGER_ID 0) s) = Raise ValueError) /\
  (forall c, _state s = SyncingOthers -> _current_ledger s = Some c ->
   snd (handle ex_provider (EvCatchupComplete c 0) s) = Raise ValueError) /\
  (AUDIT_LEDGER_ID ∉ _leechers s ->
   snd (handle ex_provider (EvStart true) s) = Raise KeyError).
Proof.
  intros s. apply C10_reserved_ledgers_required.
  right. vm_compute. intros H. apply list_elem_of_singleton in H. discriminate.
Defined.

(** ** Invariants of reachable states *)

Section Preserves.

Variable P : St -> Prop.

Lemma pres_bind {A B} (c : M A) (k : A -> M B) :
  preserves P c -> (forall a, preserves P (k a)) -> preserves P (bind c k).
Proof.
  intros Hc Hk s s' r Hs. unfold bind.
  destruct (c s) as [s1 [a|e]] eqn:E.
  - apply Hk. eapply Hc; eauto.
  - intros [= <- _]. eapply Hc; eauto.
Qed.

Lemma pres_ret {A} (a : A) : preserves P (ret a).
Proof. intros s s' r Hs [= <- _]. exact Hs. Qed.

Lemma pres_throw {A} (e : Exc) : preserves P (@throw A e).
Proof. intros s s' r Hs [= <- _]. exact Hs. Qed.

Lemma pres_lift {A} (o : Outcome A) : preserves P (lift o).
Proof. intros s s' r Hs [= <- _]. exact Hs. Qed.

Lemma pres_get : preserves P get.
Proof. intros s s' r Hs [= <- _]. exact Hs. Qed.

Lemma pres_modify (f : St -> St) :
  (forall s, P s -> P (f s)) -> preserves P (modify f).
Proof. intros Hf s s' r Hs [= <- _]. auto. Qed.

End Preserves.

Create HintDb pres.
#[local] Hint Resolve pres_ret pres_throw pres_lift pres_get : pres.

Ltac pres_step :=
  match goal with
  | |- preserves _ (bind _ _) => apply pres_bind; [|intro]
  | |- preserves _ (match ?x with _ => _ end) => destruct x
  | |- preserves _ (if ?b then _ else _) => destruct b
  | |- preserves _ (let '(_, _) := ?x in _) => destruct x
  | _ => eauto with pres
  end.
Ltac prove_pres := repeat pres_step.

Lemma reg_emit (a : Action) : preserves registry_inv (emit a).
Proof. apply pres_modify. intros [] H. exact H. Qed.
Lemma reg_set_state (x : State) : preserves registry_inv (set_state x).
Proof. apply pres_modify. intros [] H. exact H. Qed.
Lemma reg_set_catchup_till (m : gmap Z CatchupTill) :
  preserves registry_inv (set_catchup_till m).
Proof. apply pres_modify. intros [] H. exact H. Qed.
#[local] Hint Resolve reg_emit reg_set_state reg_set_catchup_till : pres.

Lemma reg_mapM_ {A} (f : A -> M unit) (l : list A) :
  (forall x, preserves registry_inv (f x)) -> preserves registry_inv (mapM_ f l).
Proof. intros Hf. induction l; simpl; prove_pres. Qed.
#[local] Hint Resolve reg_mapM_ : pres.

Lemma reg_leecher (l : Z) : preserves registry_inv (leecher l).
Proof. unfold leecher. prove_pres. Qed.
Lemma reg_catchup_ledger (l : Z) : preserves registry_inv (catchup_ledger l).
Proof. unfold catchup_ledger. prove_pres; apply reg_leecher. Qed.
Lemma reg_calc (p : Provider) : preserves registry_inv (calc_catchup_till p).
Proof.
  unfold calc_catchup_till. destruct (get_last_committed_txn p); [|apply pres_ret].
  apply reg_mapM_. intros [l fs]. unfold calc_one. prove_pres.
Qed.
Lemma reg_start (b : bool) : preserves registry_inv (start b).
Proof. unfold start. prove_pres; apply reg_leecher. Qed.
#[local] Hint Resolve reg_leecher reg_catchup_ledger reg_calc reg_start : pres.

Lemma reg_register (l : Z) : preserves registry_inv (register_ledger l).
Proof.
  intros [stt till cur ls lg] s' r [Hnd Hcur]. simpl in *.
  unfold register_ledger, bind, get, ret, set_leechers, modify. simpl.
  case_bool_decide as Hin; intros [= <- _]; [split; assumption|]. simpl.
  split.
  - apply NoDup_app. split_and!; [exact Hnd | set_solver | apply NoDup_singleton].
  - intros c Hc. destruct (Hcur c Hc) as (HA & HP & Hc' & Hne1 & Hne2).
    split_and!; set_solver.
Qed.

Lemma reg_sync_next : preserves registry_inv sync_next_ledger.
Proof.
  intros s s' r Hs. unfold sync_next_ledger. unfold bind at 1. unfold get at 1.
  unfold bind at 1. unfold lift at 1.
  destruct (get_next_ledger (_leechers s) (_current_ledger s)) as [nxt|e] eqn:E;
    [|intros [= <- _]; exact Hs].
  unfold bind at 1. unfold set_current_ledger at 1, modify at 1.
  set (s1 := mkSt (_state s) (_catchup_till s) nxt (_leechers s) (out_log s)).
  assert (registry_inv s1) as Hs1.
  { destruct Hs as [Hnd Hcur]. split; [exact Hnd|].
    intros c Hc. simpl in Hc. subst nxt.
    exact (get_next_ledger_some _ _ _ Hnd E). }
  destruct nxt as [n|]; [apply (reg_catchup_ledger n s1 s' r Hs1)|].
  eapply pres_bind; [apply reg_set_state | intros; apply reg_emit | exact Hs1].
Qed.
#[local] Hint Resolve reg_register reg_sync_next : pres.

Lemma reg_handle (p : Provider) (ev : Event) : preserves registry_inv (handle p ev).
Proof.
  unfold handle, on_ledger_catchup_complete, on_audit_synced, on_pool_synced,
    on_other_synced.
  prove_pres.
Qed.

Lemma reg_run (p : Provider) (evs : list Event) (s : St) :
  registry_inv s -> registry_inv (run p evs s).
Proof.
  revert s. induction evs as [|ev evs IH]; intros s Hs; simpl; [exact Hs|].
  apply IH. unfold run_event.
  destruct (handle p ev s) as [s' [u|e]] eqn:E.
  - exact (reg_handle p ev s s' _ Hs E).
  - destruct (reg_handle p ev s s' _ Hs E) as [Hnd Hcur]. split; [exact Hnd|].
    exact Hcur.
Qed.

Lemma reachable_registry_inv (p : Provider) (s : St) :
  reachable p s -> registry_inv s.
Proof.
  intros [evs ->]. apply reg_run. split; [constructor | discriminate].
Qed.

(** ** C8: the walk over the other ledgers *)

Lemma get_next_ledger_after (keys : list Z) (c : Z) pre rest :
  NoDup keys -> AUDIT_LEDGER_ID ∈ keys -> POOL_LEDGER_ID ∈ keys ->
  filter (fun x => x <> AUDIT_LEDGER_ID /\ x <> POOL_LEDGER_ID) keys = pre ++ c :: rest ->
  get_next_ledger keys (Some c) = Ok (head rest).
Proof.
  intros Hnd HA HP Hoth.
  destruct (get_next_ledger_others keys Hnd HA HP) as (others & Ho & ->).
  subst others.
  assert (NoDup (pre ++ c :: rest)) as Hnd'.
  { rewrite <- Hoth. by apply NoDup_filter. }
  assert (c ∉ pre) as Hc.
  { apply NoDup_app in Hnd' as (_ & Hdisj & _). intros Hin.
    apply (Hdisj c Hin). set_solver. }
  rewrite Hoth, py_index_app by exact Hc.
  rewrite length_app. cbn [length].
  rewrite (proj2 (Nat.eqb_neq (length pre + S (length rest)) 0)) by lia.
  destruct rest as [|nxt post]; cbn [length head].
  - rewrite Nat.add_1_r, Nat.eqb_refl. reflexivity.
  - rewrite (proj2 (Nat.eqb_neq (S (length pre)) (length pre + S (S (length post)))))
      by lia.
    rewrite lookup_app_r by lia.
    replace (S (length pre) - length pre)%nat with 1%nat by lia. reflexivity.
Qed.

(** C8: in [SyncingOthers] (reached from construction), the current
    ledger is one of the registered ledgers other than Audit and Pool, and
    its completion starts the next of them in registration order, or, when
    it was the last, switches to [Idle] and puts exactly one
    [NodeCatchupComplete] on the output. *)
Theorem C8_sync_next_other (p : Provider) (s : St) (c n0 : Z) :
  reachable p s -> _state s = SyncingOthers -> _current_ledger s = Some c ->
  let others := filter (fun x => x <> AUDIT_LEDGER_ID /\ x <> POOL_LEDGER_ID)
                       (_leechers s) in
  let ev := EvCatchupComplete c n0 in
  (exists pre rest, others = pre ++ c :: rest) /\
  (forall pre nxt post, others = pre ++ c :: nxt :: post ->
   handle p ev s =
   (mkSt SyncingOthers (_catchup_till s) (Some nxt) (_leechers s)
      (out_log s ++
       [AHandle SyncingOthers ev;
        match _catchup_till s !! nxt with
        | None => ALeecherStart nxt true None
        | Some till => ALeecherStart nxt false (Some till)
        end]), Ok tt)) /\
  (forall pre, others = pre ++ [c] ->
   handle p ev s =
   (mkSt Idle (_catchup_till s) None (_leechers s)
      (out_log s ++ [AHandle SyncingOthers ev; ANodeCatchupComplete]), Ok tt)).
Proof.
  intros Hr Hst Hcur others ev.
  destruct (reachable_registry_inv p s Hr) as [Hnd Hinv].
  destruct (Hinv c Hcur) as (HA & HP & Hc & HcA & HcP).
  split; [|split].
  - apply list_elem_of_split. subst others. apply list_elem_of_filter. auto.
  - intros pre nxt post Hoth.
    pose proof (get_next_ledger_after _ c pre (nxt :: post) Hnd HA HP Hoth) as Hn.
    assert (nxt ∈ _leechers s) as Hnxt.
    { assert (nxt ∈ others) as H by (rewrite Hoth; set_solver).
      apply list_elem_of_filter in H. tauto. }
    destruct s as [stt till cur ls lg]; simpl in *. subst stt cur.
    unfold handle, on_ledger_catchup_complete, on_other_synced, sync_next_ledger,
      catchup_ledger, leecher. unfold_monad. simpl.
    rewrite bool_decide_true by reflexivity.
    cbn [_leechers _current_ledger _catchup_till]. rewrite Hn. simpl.
    rewrite bool_decide_true by exact Hnxt. simpl.
    destruct (till !! nxt); simpl; rewrite <- app_assoc; reflexivity.
  - intros pre Hoth.
    pose proof (get_next_ledger_after _ c pre [] Hnd HA HP Hoth) as Hn.
    destruct s as [stt till cur ls lg]; simpl in *. subst stt cur.
    unfold handle, on_ledger_catchup_complete, on_other_synced, sync_next_ledger.
    unfold_monad. simpl.
    rewrite bool_decide_true by reflexivity.
    cbn [_leechers _current_ledger _catchup_till]. rewrite Hn. simpl.
    rewrite <- app_assoc. reflexivity.
Qed.

Lemma C8_witness :
  let s := run ex_provider (ex_register ++ ex_round) init_st in
  let others := filter (fun x => x <> AUDIT_LEDGER_ID /\ x <> POOL_LEDGER_ID)
                       (_leechers s) in
  let ev := EvCatchupComplete 1 0 in
  (exists pre rest, others = pre ++ 1%Z :: rest) /\
  (forall pre nxt post, others = pre ++ 1%Z :: nxt :: post ->
   handle ex_provider ev s =
   (mkSt SyncingOthers (_catchup_till s) (Some nxt) (_leechers s)
      (out_log s ++
       [AHandle SyncingOthers ev;
        match _catchup_till s !! nxt with
        | None => ALeecherStart nxt true None
        | Some till => ALeecherStart nxt false (Some till)
        end]), Ok tt)) /\
  (forall pre, others = pre ++ [1%Z] ->
   handle ex_provider ev s =
   (mkSt Idle (_catchup_till s) None (_leechers s)
      (out_log s ++ [AHandle SyncingOthers ev; ANodeCatchupComplete]), Ok tt)).
Proof.
  apply (C8_sync_next_other ex_provider _ 1 0).
  - exists (ex_register ++ ex_round). reflexivity.
  - vm_compute. reflexivity.
  - vm_compute. reflexivity.
Defined.

(** ** C1: the ordering of a round *)

Lemma monitor_app (f : bool * bool) (l1 l2 : list Action) :
  monitor f (l1 ++ l2) =
  match monitor f l1 with Some f' => monitor f' l2 | None => None end.
Proof.
  revert f. induction l1 as [|x l1 IH]; intros f; simpl; [reflexivity|].
  destruct (mon_step f x); [apply IH | reflexivity].
Qed.

Lemma monitor_resets (f : bool * bool) (ls : list Z) :
  monitor f (map ALeecherReset ls) = Some f.
Proof.
  induction ls as [|x ls IH]; simpl; [reflexivity|].
  destruct f. exact IH.
Qed.

Lemma no_restart_cons (x : Action) (l : list Action) :
  (forall s b, x <> AHandle s (EvStart b)) -> no_restart l -> no_restart (x :: l).
Proof.
  intros Hx Hl s b Hin. apply elem_of_cons in Hin as [Heq|Hin].
  - exact (Hx s b (eq_sym Heq)).
  - exact (Hl s b Hin).
Qed.

Lemma no_restart_nil : no_restart [].
Proof. intros s b Hin. set_solver. Qed.

Ltac mon_left := left; split; [assumption | intros ? ? ?; discriminate].

(** How a monitor step can set the Audit flag. *)
Lemma mon_step_audit (a q a' q' : bool) (x : Action) :
  mon_step (a, q) x = Some (a', q') -> a' = true ->
  (a = true /\ forall s b, x <> AHandle s (EvStart b)) \/
  exists n, x = AHandle SyncingAudit (EvCatchupComplete AUDIT_LEDGER_ID n).
Proof.
  intros H Ha.
  destruct x as [st [r|b|lid n]|l|l bb t| |e]; simpl in H.
  - destruct st; simpl in H; injection H as <- <-; mon_left.
  - destruct st; simpl in H; injection H as <- <-; discriminate.
  - destruct st; simpl in H; injection H as <- <-; try mon_left.
    destruct a; [mon_left|].
    right. exists n. f_equal. f_equal. apply Z.eqb_eq. exact Ha.
  - injection H as <- <-. mon_left.
  - destruct (_ && _); [injection H as <- <-; mon_left | discriminate].
  - injection H as <- <-. mon_left.
  - injection H as <- <-. mon_left.
Qed.

(** How a monitor step can set the Pool flag. *)
Lemma mon_step_pool (a q a' q' : bool) (x : Action) :
  mon_step (a, q) x = Some (a', q') -> q' = true ->
  (q = true /\ forall s b, x <> AHandle s (EvStart b)) \/
  exists n, x = AHandle SyncingPool (EvCatchupComplete POOL_LEDGER_ID n).
Proof.
  intros H Hq.
  destruct x as [st [r|b|lid n]|l|l bb t| |e]; simpl in H.
  - destruct st; simpl in H; injection H as <- <-; mon_left.
  - destruct st; simpl in H; injection H as <- <-; discriminate.
  - destruct st; simpl in H; injection H as <- <-; try mon_left.
    destruct q; [mon_left|].
    right. exists n. f_equal. f_equal. apply Z.eqb_eq. exact Hq.
  - injection H as <- <-. mon_left.
  - destruct (_ && _); [injection H as <- <-; mon_left | discriminate].
  - injection H as <- <-. mon_left.
  - injection H as <- <-. mon_left.
Qed.

(** A log the monitor accepts has, before each leecher start of a
    non-Audit ledger, an Audit completion handled in [SyncingAudit] with
    no [start()] after it (or the flag was already set on entry), and
    likewise a Pool completion in [SyncingPool] before each start of a
    ledger other than Audit and Pool. *)
Lemma monitor_sound (f f' : bool * bool) (l : list Action) :
  monitor f l = Some f' ->
  forall pre L b t post, l = pre ++ ALeecherStart L b t :: post ->
  (L <> AUDIT_LEDGER_ID ->
   (fst f = true /\ no_restart pre) \/
   exists p1 p2 n, pre = p1 ++ AHandle SyncingAudit (EvCatchupComplete AUDIT_LEDGER_ID n) :: p2
                   /\ no_restart p2) /\
  (L <> AUDIT_LEDGER_ID -> L <> POOL_LEDGER_ID ->
   (snd f = true /\ no_restart pre) \/
   exists p1 p2 n, pre = p1 ++ AHandle SyncingPool (EvCatchupComplete POOL_LEDGER_ID n) :: p2
                   /\ no_restart p2).
Proof.
  intros Hm pre. revert f l Hm.
  induction pre as [|x pre IH]; intros [a q] l Hm L b t post ->.
  - simpl in Hm. destruct (_ && _) eqn:E; [|discriminate].
    apply andb_prop in E as [E1 E2].
    split; [intros HA | intros HA HP]; left; (split; [|apply no_restart_nil]); simpl.
    + rewrite (proj2 (Z.eqb_neq _ _) HA) in E1. exact E1.
    + rewrite (proj2 (Z.eqb_neq _ _) HA), (proj2 (Z.eqb_neq _ _) HP) in E2. exact E2.
  - cbn [app monitor] in Hm.
    destruct (mon_step (a, q) x) as [[a' q']|] eqn:Es; [|discriminate].
    destruct (IH (a', q') _ Hm L b t post eq_refl) as [IHa IHp]. split.
    + intros HA. destruct (IHa HA) as [[Ha' Hnr] | (p1 & p2 & n & -> & Hnr)].
      * simpl in Ha'. destruct (mon_step_audit _ _ _ _ _ Es Ha') as [[Ha Hx] | [n ->]].
        -- left. split; [exact Ha | apply no_restart_cons; assumption].
        -- right. exists [], pre, n. split; [reflexivity | exact Hnr].
      * right. exists (x :: p1), p2, n. split; [reflexivity | exact Hnr].
    + intros HA HP. destruct (IHp HA HP) as [[Hq' Hnr] | (p1 & p2 & n & -> & Hnr)].
      * simpl in Hq'. destruct (mon_step_pool _ _ _ _ _ Es Hq') as [[Hq Hx] | [n ->]].
        -- left. split; [exact Hq | apply no_restart_cons; assumption].
        -- right. exists [], pre, n. split; [reflexivity | exact Hnr].
      * right. exists (x :: p1), p2, n. split; [reflexivity | exact Hnr].
Qed.

(** ** Log effects of the handlers *)

Lemma calc_frame (p : Provider) (s s' : St) (r : Outcome unit) :
  calc_catchup_till p s = (s', r) ->
  _state s' = _state s /\ out_log s' = out_log s /\
  _leechers s' = _leechers s /\ _current_ledger s' = _current_ledger s.
Proof.
  unfold calc_catchup_till. destruct (get_last_committed_txn p) as [t|].
  - intros H. apply calc_loop_frame in H. tauto.
  - unfold ret. intros H. injection H as <- _. auto.
Qed.

Lemma catchup_ledger_log (l : Z) (s s' : St) (r : Outcome unit) :
  catchup_ledger l s = (s', r) ->
  _state s' = _state s /\
  (out_log s' = out_log s \/ exists b t, out_log s' = out_log s ++ [ALeecherStart l b t]).
Proof.
  destruct s as [stt till cur ls lg].
  unfold catchup_ledger, leecher. unfold_monad. simpl.
  case_bool_decide as Hin; [|intros H; injection H as <- _; auto].
  cbn [_catchup_till]. destruct (till !! l); simpl; intros H; injection H as <- _; simpl; eauto.
Qed.

Lemma sync_next_log (s s' : St) (r : Outcome unit) :
  sync_next_ledger s = (s', r) ->
  (_state s' = _state s /\
   (out_log s' = out_log s \/
    exists m b t, out_log s' = out_log s ++ [ALeecherStart m b t])) \/
  (_state s' = Idle /\ out_log s' = out_log s ++ [ANodeCatchupComplete]).
Proof.
  destruct s as [stt till cur ls lg].
  unfold sync_next_ledger. unfold bind at 1, get at 1, bind at 1, lift at 1.
  destruct (get_next_ledger _ _) as [[m|]|e]; simpl.
  - unfold bind at 1, set_current_ledger at 1, modify at 1. simpl.
    intros H. apply catchup_ledger_log in H as [Hst Hlog]. simpl in *.
    left. split; [exact Hst|]. destruct Hlog as [Hl | (b & t & Hl)]; eauto.
  - unfold_monad. simpl. intros H. injection H as <- _. right. auto.
  - intros H. injection H as <- _. left. auto.
Qed.

Lemma register_frame (l : Z) (s s' : St) (r : Outcome unit) :
  register_ledger l s = (s', r) -> _state s' = _state s /\ out_log s' = out_log s.
Proof.
  unfold register_ledger. unfold_monad.
  case_bool_decide; intros H'; injection H' as <- _; auto.
Qed.

(** ** The round invariant *)

Lemma monitor_snoc (f : bool * bool) (l : list Action) (x : Action) :
  monitor f (l ++ [x]) =
  match monitor f l with Some f' => mon_step f' x | None => None end.
Proof.
  rewrite monitor_app. destruct (monitor f l) as [f'|]; [|reflexivity].
  simpl. destruct (mon_step f' x); reflexivity.
Qed.

Lemma round_inv_intro (s : St) (a q : bool) :
  monitor (false, false) (out_log s) = Some (a, q) ->
  (_state s = SyncingPool -> a = true) ->
  (_state s = SyncingOthers -> a = true /\ q = true) ->
  round_inv s.
Proof. intros. exists a, q. auto. Qed.

Lemma round_inv_raised (s : St) (e : Exc) :
  round_inv s ->
  round_inv (mkSt (_state s) (_catchup_till s) (_current_ledger s)
                  (_leechers s) (out_log s ++ [ARaised e])).
Proof.
  intros (a & q & Hm & Hp & Ho). exists a, q. simpl.
  rewrite monitor_snoc, Hm. auto.
Qed.

(** Once both flags are set, [_sync_next_ledger] keeps the invariant. *)
Lemma round_inv_sync_next (s s' : St) (r : Outcome unit) :
  monitor (false, false) (out_log s) = Some (true, true) ->
  sync_next_ledger s = (s', r) -> round_inv s'.
Proof.
  intros Hm H. apply sync_next_log in H as [[_ [Hl | (m & b & t & Hl)]] | [_ Hl]];
    (apply (round_inv_intro _ true true); [rewrite Hl|auto|auto]).
  - exact Hm.
  - rewrite monitor_snoc, Hm. simpl. rewrite !orb_true_r. reflexivity.
  - rewrite monitor_snoc, Hm. reflexivity.
Qed.

Lemma round_inv_handle (p : Provider) (ev : Event) (s s' : St) (r : Outcome unit) :
  round_inv s -> handle p ev s = (s', r) -> round_inv s'.
Proof.
  intros (a & q & Hm & Hp & Ho).
  destruct s as [stt till cur ls lg]; simpl in *.
  unfold handle. unfold bind at 1, get at 1, bind at 1, emit at 1, modify at 1.
  cbn [_state _catchup_till _current_ledger _leechers out_log].
  assert (Hm1 : monitor (false, false) (lg ++ [AHandle stt ev]) = mon_step (a, q) (AHandle stt ev))
    by (rewrite monitor_snoc, Hm; reflexivity).
  destruct ev as [l|b|lid n].
  - intros H. apply register_frame in H as [Hst Hl].
    apply (round_inv_intro _ a q); rewrite ?Hl, ?Hst; simpl; auto.
    rewrite Hm1. destruct stt; reflexivity.
  - rewrite (start_eq p). simpl. case_bool_decide; intros H'; injection H' as <- _;
      (apply (round_inv_intro _ false false); simpl; [|discriminate|discriminate]);
      rewrite ?app_assoc, ?monitor_snoc, monitor_app, monitor_snoc, Hm;
      (destruct stt; simpl; rewrite monitor_resets; reflexivity).
  - unfold on_ledger_catchup_complete. unfold bind at 1, get at 1.
    destruct stt; cbn [_state].
    + (* Idle *)
      unfold ret. intros H'; injection H' as <- _.
      apply (round_inv_intro _ a q); simpl; [|discriminate|discriminate].
      simpl in Hm1. exact Hm1.
    + (* SyncingAudit *)
      unfold on_audit_synced. destruct (Z.eqb lid AUDIT_LEDGER_ID) eqn:El.
      * unfold bind at 1. destruct (calc_catchup_till p _) as [s2 [u|e]] eqn:Ec.
        -- apply calc_frame in Ec as (Hst2 & Hl2 & _ & _).
           unfold bind at 1, set_state at 1, modify at 1.
           intros H'. apply catchup_ledger_log in H' as [Hst3 Hl3]. simpl in Hst3.
           simpl in Hm1. rewrite El, orb_true_r in Hm1.
           apply (round_inv_intro _ true q); rewrite ?Hst3; [|auto|discriminate].
           destruct Hl3 as [Hl3 | (b & t & Hl3)]; rewrite Hl3; simpl; rewrite Hl2; simpl;
             [exact Hm1|]. rewrite monitor_snoc, Hm1. reflexivity.
        -- apply calc_frame in Ec as (Hst2 & Hl2 & _ & _).
           intros H'; injection H' as <- _.
           simpl in Hm1. rewrite El, orb_true_r in Hm1.
           apply (round_inv_intro _ true q); rewrite ?Hst2; [|discriminate|discriminate].
           rewrite Hl2. exact Hm1.
      * unfold ret. intros H'; injection H' as <- _.
        apply (round_inv_intro _ (a || Z.eqb lid AUDIT_LEDGER_ID) q);
          simpl; [exact Hm1|discriminate|discriminate].
    + (* SyncingPool *)
      specialize (Hp eq_refl). subst a.
      unfold on_pool_synced. destruct (Z.eqb lid POOL_LEDGER_ID) eqn:El.
      * unfold bind at 1, set_state at 1, modify at 1.
        apply round_inv_sync_next. simpl. rewrite monitor_snoc, Hm. simpl.
        rewrite El, orb_true_r. reflexivity.
      * unfold ret. intros H'; injection H' as <- _.
        apply (round_inv_intro _ true (q || Z.eqb lid POOL_LEDGER_ID));
          simpl; [exact Hm1|auto|discriminate].
    + (* SyncingOthers *)
      destruct (Ho eq_refl) as [-> ->].
      unfold on_other_synced. unfold bind at 1, get at 1.
      case_bool_decide.
      * apply round_inv_sync_next. exact Hm1.
      * unfold ret. intros H'; injection H' as <- _.
        apply (round_inv_intro _ true true); simpl; [exact Hm1|auto|auto].
Qed.

Lemma round_inv_run (p : Provider) (evs : list Event) (s : St) :
  round_inv s -> round_inv (run p evs s).
Proof.
  revert s. induction evs as [|ev evs IH]; intros s Hs; simpl; [exact Hs|].
  apply IH. unfold run_event.
  destruct (handle p ev s) as [s' [u|e]] eqn:E.
  - exact (round_inv_handle p ev s s' _ Hs E).
  - apply round_inv_raised. exact (round_inv_handle p ev s s' _ Hs E).
Qed.

Lemma round_inv_init : round_inv init_st.
Proof. exists false, false. split; [reflexivity | split; discriminate]. Qed.

(** C1: in every run from construction, over any registration order and
    any sequence of inputs, each start of a leecher other than Audit's is
    preceded by an Audit completion handled in [SyncingAudit], and each
    start of a leecher other than Audit's and Pool's by a Pool completion
    handled in [SyncingPool], both in the current round (no [start()]
    handled in between). *)
Theorem C1_ordering (p : Provider) (evs : list Event) (pre : list Action)
    (L : Z) (b : bool) (t : option CatchupTill) (post : list Action) :
  out_log (run p evs init_st) = pre ++ ALeecherStart L b t :: post ->
  (L <> AUDIT_LEDGER_ID ->
   exists p1 p2 n, pre = p1 ++ AHandle SyncingAudit (EvCatchupComplete AUDIT_LEDGER_ID n) :: p2
                   /\ no_restart p2) /\
  (L <> AUDIT_LEDGER_ID -> L <> POOL_LEDGER_ID ->
   exists p1 p2 n, pre = p1 ++ AHandle SyncingPool (EvCatchupComplete POOL_LEDGER_ID n) :: p2
                   /\ no_restart p2).
Proof.
  intros Hlog.
  destruct (round_inv_run p evs init_st round_inv_init) as (a & q & Hm & _ & _).
  destruct (monitor_sound _ _ _ Hm pre L b t post Hlog) as [Ha Hq].
  split.
  - intros HA. destruct (Ha HA) as [[Hf _] | Hex]; [discriminate | exact Hex].
  - intros HA HP. destruct (Hq HA HP) as [[Hf _] | Hex]; [discriminate | exact Hex].
Qed.

Lemma C1_witness :
  out_log (run ex_provider (ex_register ++ ex_round) init_st) =
    ex_round_log_prefix ++ [ALeecherStart 1 false (Some ex_till_1)] /\
  ((1 <> AUDIT_LEDGER_ID ->
    exists p1 p2 n, ex_round_log_prefix =
      p1 ++ AHandle SyncingAudit (EvCatchupComplete AUDIT_LEDGER_ID n) :: p2
      /\ no_restart p2) /\
   (1 <> AUDIT_LEDGER_ID -> 1 <> POOL_LEDGER_ID ->
    exists p1 p2 n, ex_round_log_prefix =
      p1 ++ AHandle SyncingPool (EvCatchupComplete POOL_LEDGER_ID n) :: p2
      /\ no_restart p2))%Z.
Proof.
  assert (H : out_log (run ex_provider (ex_register ++ ex_round) init_st) =
              ex_round_log_prefix ++ [ALeecherStart 1 false (Some ex_till_1)])
    by (vm_compute; reflexivity).
  split; [exact H|].
  exact (C1_ordering ex_provider (ex_register ++ ex_round) ex_round_log_prefix
           1 false (Some ex_till_1) [] H).
Defined.

(** ** C4: restarting a round *)

Lemma drop_restart_tail :
  drop (length (out_log (run ex_provider (ex_register ++ ex_round) init_st)))
       (out_log (run ex_provider ex_round
                     (run ex_provider (ex_register ++ ex_round) init_st))) =
  ([AHandle SyncingOthers (EvStart true); ALeecherReset 3; ALeecherReset 0;
    ALeecherReset 1; ALeecherReset 2; ALeecherStart 3 true None;
    AHandle SyncingAudit (EvCatchupComplete 3 0);
    ALeecherStart 0 false (Some (mkCatchupTill 0 2 (Some "P") 0 3));
    AHandle SyncingPool (EvCatchupComplete 0 0);
    ALeecherStart 2 true None])%Z.
Proof. vm_compute. reflexivity. Qed.

Lemma handle_start_eq (p : Provider) (b : bool) (s : St) :
  handle p (EvStart b) s =
  start b (mkSt (_state s) (_catchup_till s) (_current_ledger s) (_leechers s)
                (out_log s ++ [AHandle (_state s) (EvStart b)])).
Proof. reflexivity. Qed.

(** C4: [start()] resets the leechers, empties [_catchup_till] and enters
    [SyncingAudit], but never touches [_current_ledger].  After a round
    interrupted in [SyncingOthers] on ledger 1 (ledgers registered in the
    order Audit, Pool, 1, 2), the restarted round carries that stale
    [_current_ledger] over: after the Pool completion it starts ledger 2
    and never ledger 1. *)
Theorem C4_restart_keeps_current_ledger :
  (forall (p : Provider) (b : bool) (s : St),
     _current_ledger (fst (handle p (EvStart b) s)) = _current_ledger s /\
     _catchup_till (fst (handle p (EvStart b) s)) = ∅ /\
     _state (fst (handle p (EvStart b) s)) = SyncingAudit) /\
  (let s1 := run ex_provider (ex_register ++ ex_round) init_st in
   let s2 := run ex_provider [EvStart true] s1 in
   let s3 := run ex_provider ex_round s1 in
   let l := drop (length (out_log s1)) (out_log s3) in
   _state s1 = SyncingOthers /\ _current_ledger s1 = Some 1%Z /\
   _state s2 = SyncingAudit /\ _catchup_till s2 = ∅ /\
   _current_ledger s2 = Some 1%Z /\
   out_log s3 = out_log s1 ++ l /\
   ALeecherStart 2 true None ∈ l /\
   (forall b t, ALeecherStart 1 b t ∉ l) /\
   _state s3 = SyncingOthers /\ _current_ledger s3 = Some 2%Z).
Proof.
  split.
  - intros p b s. rewrite handle_start_eq, (start_eq p).
    case_bool_decide; simpl; auto.
  - intros s1 s2 s3 l. subst l s3 s2 s1. rewrite drop_restart_tail.
    split_and!; try (vm_compute; reflexivity).
    + set_solver.
    + intros b t Hin.
      repeat (apply elem_of_cons in Hin as [Hin|Hin]; [discriminate|]).
      set_solver.
Qed.

(** ** C9: the certified prefix *)

Lemma count_preprepared_disjoint (votes : list ViewChangeVote) (pp : Z) (b1 b2 : BatchID) :
  b1 <> b2 ->
  (count_preprepared votes pp b1 + count_preprepared votes pp b2 <= length votes)%nat.
Proof.
  intros Hne. unfold count_preprepared.
  induction votes as [|v votes IH]; simpl; [lia|].
  case_bool_decide as H1; case_bool_decide as H2; simpl.
  - congruence.
  - lia.
  - lia.
  - lia.
Qed.

(** With fewer than [2q] votes, at most one batch is certified at a position. *)
Lemma quorum_certified_unique (q : nat) (votes : list ViewChangeVote) (pp : Z) (b1 b2 : BatchID) :
  (length votes < 2 * q)%nat ->
  quorum_certified q votes pp b1 -> quorum_certified q votes pp b2 -> b1 = b2.
Proof.
  intros Hlen [H1 _] [H2 _].
  destruct (decide (b1 = b2)) as [|Hne]; [assumption|].
  pose proof (count_preprepared_disjoint votes pp b1 b2 Hne). lia.
Qed.

Lemma count_preprepared_pos (votes : list ViewChangeVote) (pp : Z) (b : BatchID) :
  (1 <= count_preprepared votes pp b)%nat ->
  exists v, In v votes /\ batch_at v pp = Some b.
Proof.
  unfold count_preprepared. induction votes as [|v votes IH]; simpl; [lia|].
  case_bool_decide as H; simpl; intros Hc.
  - exists v. auto.
  - destruct (IH Hc) as (w & Hw & Hb). exists w. auto.
Qed.

Lemma certified_batch_some (q : nat) (votes : list ViewChangeVote) (pp : Z) (b : BatchID) :
  (1 <= q)%nat -> (length votes < 2 * q)%nat ->
  quorum_certified q votes pp b -> certified_batch q votes pp = Some b.
Proof.
  intros Hq Hlen Hb. unfold certified_batch.
  destruct (List.find _ _) as [b'|] eqn:Hf.
  - apply find_some in Hf as [_ Hf]. apply andb_prop in Hf as [Hf1 Hf2].
    apply bool_decide_eq_true in Hf1, Hf2.
    f_equal. exact (quorum_certified_unique q votes pp b' b Hlen (conj Hf1 Hf2) Hb).
  - exfalso. destruct Hb as [Hb1 Hb2].
    destruct (count_preprepared_pos votes pp b ltac:(lia)) as (v & Hv & Hbv).
    assert (Hin : In b (omap (fun v => batch_at v pp) votes)).
    { apply list_elem_of_In. apply list_elem_of_omap. exists v.
      split; [apply list_elem_of_In; exact Hv | exact Hbv]. }
    pose proof (find_none _ _ Hf b Hin) as Hfalse. simpl in Hfalse.
    rewrite (bool_decide_eq_true_2 _ Hb1), (bool_decide_eq_true_2 _ Hb2) in Hfalse.
    discriminate.
Qed.

Lemma certified_batch_none (q : nat) (votes : list ViewChangeVote) (pp : Z) :
  (forall b, ~ quorum_certified q votes pp b) -> certified_batch q votes pp = None.
Proof.
  intros Hno. unfold certified_batch.
  destruct (List.find _ _) as [b|] eqn:Hf; [|reflexivity].
  apply find_some in Hf as [_ Hf]. apply andb_prop in Hf as [Hf1 Hf2].
  apply bool_decide_eq_true in Hf1, Hf2. exfalso. exact (Hno b (conj Hf1 Hf2)).
Qed.

Lemma batch_at_pp (v : ViewChangeVote) (pp : Z) (b : BatchID) :
  batch_at v pp = Some b -> In b (preprepared v) /\ b_pp_seq_no b = pp.
Proof.
  unfold batch_at. intros H. apply find_some in H as [Hin Heq].
  split; [exact Hin | apply Z.eqb_eq; exact Heq].
Qed.

Lemma foldr_max_ge (l : list Z) (x : Z) : In x l -> (x <= foldr Z.max 0 l)%Z.
Proof.
  induction l as [|y l IH]; simpl; [tauto|].
  intros [->|Hin]; [lia|]. specialize (IH Hin). lia.
Qed.

(** A position certified by a non-empty quorum is at most [max_pp_seq_no]. *)
Lemma certified_le_max (q : nat) (votes : list ViewChangeVote) (pp : Z) (b : BatchID) :
  (1 <= q)%nat -> quorum_certified q votes pp b -> (pp <= max_pp_seq_no votes)%Z.
Proof.
  intros Hq [H1 _].
  destruct (count_preprepared_pos votes pp b ltac:(lia)) as (v & Hv & Hbv).
  apply batch_at_pp in Hbv as [Hin <-].
  unfold max_pp_seq_no. apply foldr_max_ge. apply in_map.
  apply in_concat. exists (preprepared v). split; [apply in_map; exact Hv | exact Hin].
Qed.

Lemma collect_batches_prefix (q : nat) (votes : list ViewChangeVote) (bs : list BatchID) :
  forall (fuel : nat) (pp : Z),
  (length bs <= fuel)%nat ->
  (forall i b, bs !! i = Some b -> certified_batch q votes (pp + Z.of_nat i) = Some b) ->
  certified_batch q votes (pp + Z.of_nat (length bs)) = None ->
  collect_batches q votes fuel pp = bs.
Proof.
  induction bs as [|b bs IH]; intros fuel pp Hfuel Hall Hend.
  - destruct fuel as [|fuel]; simpl; [reflexivity|].
    simpl in Hend. rewrite Z.add_0_r in Hend. rewrite Hend. reflexivity.
  - destruct fuel as [|fuel]; simpl in Hfuel; [lia|]. simpl.
    pose proof (Hall 0%nat b eq_refl) as H0. rewrite Z.add_0_r in H0. rewrite H0.
    f_equal. apply IH; [lia| |].
    + intros i b' Hi. specialize (Hall (S i) b' Hi).
      replace (pp + 1 + Z.of_nat i)%Z with (pp + Z.of_nat (S i))%Z by lia. exact Hall.
    + replace (pp + 1 + Z.of_nat (length bs))%Z
        with (pp + Z.of_nat (length (b :: bs)))%Z by (simpl; lia).
      exact Hend.
Qed.

(** C9: for a strong quorum of votes among at most [3f+1] validators,
    when the batches [bs] are prepare-quorum certified at the successive
    positions [seq_no_end + 1], [seq_no_end + 2], ... and no batch is
    certified at the position right after them, [calc_batches] returns
    exactly [bs]: the certified contiguous prefix, nothing at or beyond
    the first uncertified position. *)
Theorem C9_calc_batches_prefix (f : nat) (cp : Checkpoint) (votes : list ViewChangeVote)
    (bs : list BatchID) :
  (length votes <= 3 * f + 1)%nat ->
  (forall i b, bs !! i = Some b ->
     quorum_certified (strong_quorum f) votes (seq_no_end cp + 1 + Z.of_nat i) b) ->
  (forall b, ~ quorum_certified (strong_quorum f) votes
                 (seq_no_end cp + 1 + Z.of_nat (length bs)) b) ->
  calc_batches f cp votes = bs.
Proof.
  intros Hlen Hall Hend. unfold calc_batches.
  assert (Hq : (1 <= strong_quorum f)%nat) by (unfold strong_quorum; lia).
  assert (Hlt : (length votes < 2 * strong_quorum f)%nat) by (unfold strong_quorum; lia).
  apply collect_batches_prefix.
  - destruct bs as [|b0 bs'] eqn:Hbs; [simpl; lia|].
    rewrite <- Hbs in *.
    assert (Hlast : exists b, bs !! (length bs - 1)%nat = Some b).
    { apply lookup_lt_is_Some_2. subst bs. simpl. lia. }
    destruct Hlast as [b Hb].
    pose proof (certified_le_max _ _ _ _ Hq (Hall _ _ Hb)) as Hle.
    assert (length bs <> 0%nat) by (subst bs; simpl; lia).
    rewrite Nat2Z.inj_sub in Hle by lia. lia.
  - intros i b Hb. apply certified_batch_some; auto.
  - apply certified_batch_none. exact Hend.
Qed.

Lemma C9_witness :
  (length ex_votes <= 3 * 1 + 1)%nat /\ calc_batches 1 ex_cp ex_votes = [ex_b1; ex_b2].
Proof.
  split; [simpl; lia|].
  apply C9_calc_batches_prefix.
  - simpl. lia.
  - intros i b Hi. destruct i as [|[|i]]; simpl in Hi; [| |discriminate];
      injection Hi as <-; split; vm_compute; lia.
  - intros b [H1 H2]. destruct (decide (b = ex_b3)) as [->|Hne].
    + vm_compute in H2. lia.
    + unfold count_preprepared, batch_at in H1. cbn in H1.
      rewrite !bool_decide_false in H1
        by (intros Heq; (discriminate || (injection Heq as <-; apply Hne; reflexivity))).
      cbn in H1. lia.
Defined.

(** ** [calc_committed] *)

Section CalcCommittedProofs.

Context {Entry : Type} `{EqDecision Entry}.
Variable pp2 : Entry -> Z.

Abbreviation find_pp := (find_pp pp2).
Abbreviation scan_votes := (scan_votes pp2).
Abbreviation committed_loop := (committed_loop pp2).
Abbreviation agreed := (agreed pp2).
Abbreviation disagree := (disagree pp2).

Lemma find_pp_pp2 (pp : Z) (l : list Entry) (e : Entry) :
  find_pp pp l = Some e -> pp2 e = pp.
Proof.
  induction l as [|x l IH]; simpl; [discriminate|].
  destruct (Z.eqb_spec (pp2 x) pp) as [Heq|_]; [intros [= <-]; exact Heq | exact IH].
Qed.

Abbreviation fits := (fits pp2).

Lemma fits_cons v vcs pp b :
  fits (v :: vcs) pp b <->
  (b ∈ vc_prepared v /\
   (find_pp pp (vc_preprepared v) = None \/ find_pp pp (vc_preprepared v) = Some b)) /\
  fits vcs pp b.
Proof.
  unfold fits. split.
  - intros H. split; [apply H; left | intros w Hw; apply H; right; exact Hw].
  - intros [H1 H2] w Hw. apply elem_of_cons in Hw as [->|Hw]; auto.
Qed.

Lemma scan_some_done pp b vcs o :
  scan_votes pp (Some b) vcs = ScanDone o -> o = Some b /\ fits vcs pp b.
Proof.
  revert o. induction vcs as [|v vcs IH]; intros o H; simpl in H.
  - injection H as <-. split; [reflexivity|]. intros w Hw. set_solver.
  - destruct (find_pp pp (vc_preprepared v)) as [e|] eqn:Hf.
    + case_bool_decide as Hbe; [|discriminate].
      case_bool_decide as Hin; [|discriminate]. subst e.
      destruct (IH o H) as [Ho Hfit]. split; [exact Ho|].
      apply fits_cons. auto.
    + case_bool_decide as Hin; [|discriminate].
      destruct (IH o H) as [Ho Hfit]. split; [exact Ho|].
      apply fits_cons. auto.
Qed.

Lemma scan_some_return pp b vcs :
  scan_votes pp (Some b) vcs = ScanReturn -> ~ fits vcs pp b.
Proof.
  induction vcs as [|v vcs IH]; intros H; simpl in H; [discriminate|].
  intros Hfit. apply fits_cons in Hfit as [[Hin Hf'] Hfit].
  destruct (find_pp pp (vc_preprepared v)) as [e|] eqn:Hf.
  - case_bool_decide as Hbe; [|discriminate].
    rewrite bool_decide_true in H by exact Hin. exact (IH H Hfit).
  - rewrite bool_decide_true in H by exact Hin. exact (IH H Hfit).
Qed.

Lemma scan_some_raise pp b vcs e :
  scan_votes pp (Some b) vcs = ScanRaise e ->
  e = AssertionError /\
  exists v e', v ∈ vcs /\ find_pp pp (vc_preprepared v) = Some e' /\ e' <> b.
Proof.
  induction vcs as [|v vcs IH]; intros H; simpl in H; [discriminate|].
  destruct (find_pp pp (vc_preprepared v)) as [e'|] eqn:Hf.
  - case_bool_decide as Hbe.
    + case_bool_decide; [|discriminate].
      destruct (IH H) as [-> (w & e'' & Hw & Hfw & Hne)].
      split; [reflexivity|]. exists w, e''. split_and!; [set_solver | exact Hfw | exact Hne].
    + injection H as <-. split; [reflexivity|].
      exists v, e'. split_and!; [set_solver | exact Hf | congruence].
  - case_bool_decide; [|discriminate].
    destruct (IH H) as [-> (w & e'' & Hw & Hfw & Hne)].
    split; [reflexivity|]. exists w, e''. split_and!; [set_solver | exact Hfw | exact Hne].
Qed.

Lemma scan_some_fits pp b vcs :
  fits vcs pp b -> scan_votes pp (Some b) vcs = ScanDone (Some b).
Proof.
  induction vcs as [|v vcs IH]; intros Hfit; simpl; [reflexivity|].
  apply fits_cons in Hfit as [[Hin [Hf|Hf]] Hfit]; rewrite Hf.
  - rewrite bool_decide_true by exact Hin. exact (IH Hfit).
  - rewrite bool_decide_true by reflexivity.
    rewrite bool_decide_true by exact Hin. exact (IH Hfit).
Qed.

Lemma scan_some_no_raise pp b vcs e :
  (forall v, v ∈ vcs -> find_pp pp (vc_preprepared v) = None \/
                        find_pp pp (vc_preprepared v) = Some b) ->
  scan_votes pp (Some b) vcs <> ScanRaise e.
Proof.
  intros Hall H. apply scan_some_raise in H as [_ (v & e' & Hv & Hf & Hne)].
  destruct (Hall v Hv) as [H'|H']; rewrite Hf in H'; congruence.
Qed.

(** The loop over the votes of one position, from [batch_id = None]. *)
Lemma scan_none_cons pp v vcs :
  scan_votes pp None (v :: vcs) =
  match find_pp pp (vc_preprepared v) with
  | Some e => if bool_decide (e ∈ vc_prepared v)
              then scan_votes pp (Some e) vcs else ScanReturn
  | None => ScanReturn
  end.
Proof. reflexivity. Qed.

Lemma scan_none_done pp vcs b :
  scan_votes pp None vcs = ScanDone (Some b) <-> agreed vcs pp b.
Proof.
  destruct vcs as [|v vcs].
  - split; [discriminate|]. intros [(w & ws & Hw & _) _]. discriminate.
  - rewrite scan_none_cons. split.
    + destruct (find_pp pp (vc_preprepared v)) as [e|] eqn:Hf; [|discriminate].
      case_bool_decide as Hin; [|discriminate].
      intros H. apply scan_some_done in H as [[= ->] Hfit].
      split; [exists v, vcs; auto|].
      apply fits_cons. auto.
    + intros [(w & ws & [= <- <-] & Hf) Hall].
      assert (Hfit : fits (v :: vcs) pp b) by exact Hall.
      apply fits_cons in Hfit as [[Hin _] Hfit].
      rewrite Hf, bool_decide_true by exact Hin. exact (scan_some_fits pp b vcs Hfit).
Qed.

Lemma scan_none_return pp vcs :
  scan_votes pp None vcs = ScanReturn -> forall b, ~ agreed vcs pp b.
Proof.
  intros H b [(w & ws & -> & Hf) Hall]. rewrite scan_none_cons, Hf in H.
  assert (Hfit : fits (w :: ws) pp b) by exact Hall.
  apply fits_cons in Hfit as [[Hin _] Hfit].
  rewrite bool_decide_true in H by exact Hin.
  exact (scan_some_return pp b ws H Hfit).
Qed.

Lemma scan_none_raise pp vcs e :
  scan_votes pp None vcs = ScanRaise e -> e = AssertionError /\ disagree vcs pp.
Proof.
  destruct vcs as [|v vcs]; [discriminate|]. rewrite scan_none_cons.
  destruct (find_pp pp (vc_preprepared v)) as [b|] eqn:Hf; [|discriminate].
  case_bool_decide as Hin; [|discriminate].
  intros H. apply scan_some_raise in H as [-> (w & e' & Hw & Hfw & Hne)].
  split; [reflexivity|]. exists v, w, b, e'. split_and!; auto; set_solver.
Qed.

Lemma scan_none_no_raise pp vcs e :
  ~ disagree vcs pp -> scan_votes pp None vcs <> ScanRaise e.
Proof. intros Hd H. apply scan_none_raise in H as [_ Hd']. exact (Hd Hd'). Qed.

Lemma scan_none_none pp vcs :
  scan_votes pp None vcs = ScanDone None -> vcs = [].
Proof.
  destruct vcs as [|v vcs]; [reflexivity|]. rewrite scan_none_cons.
  destruct (find_pp pp (vc_preprepared v)) as [b|]; [|discriminate].
  case_bool_decide as Hin; [|discriminate].
  intros H. apply scan_some_done in H as [[=] _].
Qed.

Lemma seq_S_map (k n : nat) :
  map Z.of_nat (seq k (S n)) = Z.of_nat k :: map Z.of_nat (seq (S k) n).
Proof. reflexivity. Qed.

(** The outer loop from position [k] over [n] positions. *)
Lemma committed_loop_ok vcs (n k : nat) (c c' : list Entry) :
  committed_loop (map Z.of_nat (seq k n)) vcs c = inr c' ->
  exists d, c' = c ++ d /\ (length d <= n)%nat /\
    (forall i b, d !! i = Some b -> agreed vcs (Z.of_nat (k + i)) b) /\
    ((length d < n)%nat -> forall b, ~ agreed vcs (Z.of_nat (k + length d)) b).
Proof.
  revert k c. induction n as [|n IH]; intros k c H.
  - simpl in H. injection H as <-. exists []. rewrite app_nil_r.
    split_and!; [reflexivity | simpl; lia | intros i b Hi; discriminate | simpl; lia].
  - rewrite seq_S_map in H. simpl in H.
    destruct (scan_votes (Z.of_nat k) None vcs) as [e| |[b|]] eqn:Hs;
      try discriminate.
    + injection H as <-. exists []. rewrite app_nil_r.
      split_and!; [reflexivity | simpl; lia | intros i b Hi; discriminate |].
      intros _ b. rewrite Nat.add_0_r. exact (scan_none_return _ _ Hs b).
    + destruct (IH (S k) (c ++ [b]) H) as (d & -> & Hlen & Hall & Hstop).
      exists (b :: d). split_and!.
      * rewrite <- app_assoc. reflexivity.
      * simpl. lia.
      * intros [|i] b' Hi; simpl in Hi.
        -- injection Hi as <-. rewrite Nat.add_0_r. apply scan_none_done. exact Hs.
        -- replace (k + S i)%nat with (S k + i)%nat by lia. exact (Hall i b' Hi).
      * intros Hlt b'. simpl. replace (k + S (length d))%nat with (S k + length d)%nat by lia.
        apply Hstop. simpl in Hlt. lia.
Qed.

Lemma committed_loop_raise vcs (n k : nat) (c : list Entry) (e : TestExc) :
  committed_loop (map Z.of_nat (seq k n)) vcs c = inl e ->
  (e = TypeError /\ vcs = []) \/
  (e = AssertionError /\ exists i, (k <= i < k + n)%nat /\ disagree vcs (Z.of_nat i)).
Proof.
  revert k c. induction n as [|n IH]; intros k c H; [discriminate|].
  rewrite seq_S_map in H. simpl in H.
  destruct (scan_votes (Z.of_nat k) None vcs) as [e'| |[b|]] eqn:Hs; try discriminate.
  - injection H as <-. apply scan_none_raise in Hs as [-> Hd].
    right. split; [reflexivity|]. exists k. split; [lia | exact Hd].
  - destruct (IH (S k) _ H) as [He | [He (i & Hi & Hd)]]; [left; exact He|].
    right. split; [exact He|]. exists i. split; [lia | exact Hd].
  - injection H as <-. left. split; [reflexivity|]. exact (scan_none_none _ _ Hs).
Qed.

Lemma committed_loop_no_raise vcs (n k : nat) (c : list Entry) :
  vcs <> [] ->
  (forall i, (k <= i < k + n)%nat -> ~ disagree vcs (Z.of_nat i)) ->
  exists c', committed_loop (map Z.of_nat (seq k n)) vcs c = inr c'.
Proof.
  intros Hne. revert k c. induction n as [|n IH]; intros k c Hd; [eexists; reflexivity|].
  rewrite seq_S_map. simpl.
  destruct (scan_votes (Z.of_nat k) None vcs) as [e| |[b|]] eqn:Hs.
  - exfalso. exact (scan_none_no_raise _ _ e (Hd k ltac:(lia)) Hs).
  - eexists; reflexivity.
  - apply IH. intros i Hi. apply Hd. lia.
  - exfalso. exact (Hne (scan_none_none _ _ Hs)).
Qed.



Lemma no_disagree_same_preprepared vcs (L : list Entry) (pp : Z) :
  (forall v, v ∈ vcs -> vc_preprepared v = L) -> ~ disagree vcs pp.
Proof.
  intros H (v1 & v2 & b1 & b2 & H1 & H2 & F1 & F2 & Hne).
  rewrite (H v1 H1) in F1. rewrite (H v2 H2) in F2. congruence.
Qed.

Abbreviation calc_committed := (calc_committed pp2).

(** X7: what [calc_committed] returns is the longest run of agreed
    positions from 1: at most 49 entries, the [i]-th (from 0) agreed on
    at position [i + 1], and, when fewer than 49, nothing agreed at the
    position after the last. *)
Theorem X7_calc_committed_result vcs (c : list Entry) :
  calc_committed vcs = inr c ->
  (length c <= 49)%nat /\
  (forall i b, c !! i = Some b ->
     pp2 b = (Z.of_nat i + 1)%Z /\ agreed vcs (Z.of_nat i + 1) b) /\
  ((length c < 49)%nat -> forall b, ~ agreed vcs (Z.of_nat (length c) + 1) b).
Proof.
  intros H. apply committed_loop_ok in H as (d & -> & Hlen & Hall & Hstop).
  simpl. split_and!; [exact Hlen| |].
  - intros i b Hi. pose proof (Hall i b Hi) as Ha.
    replace (Z.of_nat (1 + i)) with (Z.of_nat i + 1)%Z in Ha by lia.
    split; [|exact Ha].
    destruct Ha as [(v & vcs' & _ & Hf) _]. exact (find_pp_pp2 _ _ _ Hf).
  - intros Hlt b. replace (Z.of_nat (length d) + 1)%Z with (Z.of_nat (1 + length d)) by lia.
    exact (Hstop Hlt b).
Qed.

(** X8: [calc_committed] raises [TypeError] (from [BatchID( *None)])
    exactly when there are no view changes at all. *)
Theorem X8_calc_committed_type_error vcs :
  calc_committed vcs = inl TypeError <-> vcs = [].
Proof.
  split; [|intros ->; reflexivity].
  intros H. apply committed_loop_raise in H as [[_ H] | [He _]]; [exact H | discriminate].
Qed.

(** X9: when [calc_committed] fails its assertion, two view changes
    pre-prepared different first entries at some position in 1..49. *)
Theorem X9_calc_committed_assertion vcs :
  calc_committed vcs = inl AssertionError ->
  exists i, (1 <= i <= 49)%nat /\ disagree vcs (Z.of_nat i).
Proof.
  intros H. apply committed_loop_raise in H as [[He _] | [_ (i & Hi & Hd)]];
    [discriminate|].
  exists i. split; [lia | exact Hd].
Qed.

(** X10: with at least one view change and no disagreement at positions
    1..49, [calc_committed] returns a list and raises nothing. *)
Theorem X10_calc_committed_total vcs :
  vcs <> [] ->
  (forall i, (1 <= i <= 49)%nat -> ~ disagree vcs (Z.of_nat i)) ->
  exists c, calc_committed vcs = inr c.
Proof.
  intros Hne Hd. apply committed_loop_no_raise; [exact Hne|].
  intros i Hi. apply Hd. lia.
Qed.


End CalcCommittedProofs.

(** ** The registry over a run *)

Lemma lee_emit (L : list Z) (a : Action) : preserves (fun s => _leechers s = L) (emit a).
Proof. apply pres_modify. intros [] H. exact H. Qed.
Lemma lee_set_state (L : list Z) (x : State) :
  preserves (fun s => _leechers s = L) (set_state x).
Proof. apply pres_modify. intros [] H. exact H. Qed.
Lemma lee_set_catchup_till (L : list Z) (m : gmap Z CatchupTill) :
  preserves (fun s => _leechers s = L) (set_catchup_till m).
Proof. apply pres_modify. intros [] H. exact H. Qed.
Lemma lee_set_current_ledger (L : list Z) (c : option Z) :
  preserves (fun s => _leechers s = L) (set_current_ledger c).
Proof. apply pres_modify. intros [] H. exact H. Qed.
#[local] Hint Resolve lee_emit lee_set_state lee_set_catchup_till lee_set_current_ledger : pres.

Lemma lee_mapM_ {A} (L : list Z) (f : A -> M unit) (l : list A) :
  (forall x, preserves (fun s => _leechers s = L) (f x)) ->
  preserves (fun s => _leechers s = L) (mapM_ f l).
Proof. intros Hf. induction l; simpl; prove_pres. Qed.
#[local] Hint Resolve lee_mapM_ : pres.

Lemma lee_leecher (L : list Z) (l : Z) : preserves (fun s => _leechers s = L) (leecher l).
Proof. unfold leecher. prove_pres. Qed.
#[local] Hint Resolve lee_leecher : pres.
Lemma lee_catchup_ledger (L : list Z) (l : Z) :
  preserves (fun s => _leechers s = L) (catchup_ledger l).
Proof. unfold catchup_ledger. prove_pres. Qed.
Lemma lee_calc (L : list Z) (p : Provider) :
  preserves (fun s => _leechers s = L) (calc_catchup_till p).
Proof.
  unfold calc_catchup_till. destruct (get_last_committed_txn p); [|apply pres_ret].
  apply lee_mapM_. intros [l fs]. unfold calc_one. prove_pres.
Qed.
Lemma lee_start (L : list Z) (b : bool) : preserves (fun s => _leechers s = L) (start b).
Proof. unfold start. prove_pres. Qed.
#[local] Hint Resolve lee_catchup_ledger lee_calc lee_start : pres.
Lemma lee_sync_next (L : list Z) : preserves (fun s => _leechers s = L) sync_next_ledger.
Proof. unfold sync_next_ledger. prove_pres. Qed.
#[local] Hint Resolve lee_sync_next : pres.



(** ** Effects of the handlers, with the registry *)

Lemma catchup_ledger_full (l : Z) (s s' : St) (r : Outcome unit) :
  catchup_ledger l s = (s', r) ->
  _state s' = _state s /\ _current_ledger s' = _current_ledger s /\
  _leechers s' = _leechers s /\
  (out_log s' = out_log s \/
   (l ∈ _leechers s /\ exists b t, out_log s' = out_log s ++ [ALeecherStart l b t])).
Proof.
  destruct s as [stt till cur ls lg].
  unfold catchup_ledger, leecher. unfold_monad. simpl.
  case_bool_decide as Hin; [|intros H; injection H as <- _; auto].
  cbn [_catchup_till]. destruct (till !! l); simpl; intros H; injection H as <- _; simpl;
    split_and!; eauto.
Qed.

Lemma sync_next_full (s s' : St) (r : Outcome unit) :
  sync_next_ledger s = (s', r) ->
  _leechers s' = _leechers s /\
  ((_state s' = _state s /\
    (out_log s' = out_log s \/
     exists m b t, m ∈ _leechers s /\ out_log s' = out_log s ++ [ALeecherStart m b t])) \/
   (_state s' = Idle /\ _current_ledger s' = None /\
    out_log s' = out_log s ++ [ANodeCatchupComplete])).
Proof.
  destruct s as [stt till cur ls lg].
  unfold sync_next_ledger. unfold bind at 1, get at 1, bind at 1, lift at 1.
  destruct (get_next_ledger _ _) as [[m|]|e]; simpl.
  - unfold bind at 1, set_current_ledger at 1, modify at 1. simpl.
    intros H. apply catchup_ledger_full in H as (Hst & _ & Hls & Hlog). simpl in *.
    split; [exact Hls|]. left. split; [exact Hst|].
    destruct Hlog as [Hl | (Hin & b & t & Hl)]; [left; exact Hl | right; eauto].
  - unfold_monad. simpl. intros H. injection H as <- _. simpl. auto.
  - intros H. injection H as <- _. auto.
Qed.

Lemma done_monitor_app (d : bool) (l1 l2 : list Action) :
  done_monitor d (l1 ++ l2) =
  match done_monitor d l1 with Some d' => done_monitor d' l2 | None => None end.
Proof.
  revert d. induction l1 as [|x l1 IH]; intros d; simpl; [reflexivity|].
  destruct (done_step d x); [apply IH | reflexivity].
Qed.

Lemma done_monitor_snoc (d : bool) (l : list Action) (x : Action) :
  done_monitor d (l ++ [x]) =
  match done_monitor d l with Some d' => done_step d' x | None => None end.
Proof.
  rewrite done_monitor_app. destruct (done_monitor d l) as [d'|]; [|reflexivity].
  simpl. destruct (done_step d' x); reflexivity.
Qed.

Lemma done_monitor_resets (d : bool) (ls : list Z) :
  done_monitor d (map ALeecherReset ls) = Some d.
Proof. induction ls as [|x ls IH]; simpl; [reflexivity | exact IH]. Qed.


Lemma starts_in_app (lg extra : list Action) (ls : list Z) :
  (forall l b t, ALeecherStart l b t ∈ lg -> l ∈ ls) ->
  Forall (fun x => forall l b t, x = ALeecherStart l b t -> l ∈ ls) extra ->
  forall l b t, ALeecherStart l b t ∈ lg ++ extra -> l ∈ ls.
Proof.
  intros H1 H2 l b t Hin. apply elem_of_app in Hin as [Hin|Hin]; [exact (H1 l b t Hin)|].
  rewrite Forall_forall in H2. exact (H2 _ Hin l b t eq_refl).
Qed.

Lemma starts_in_mono (lg : list Action) (ls ls' : list Z) :
  ls ⊆ ls' ->
  (forall l b t, ALeecherStart l b t ∈ lg -> l ∈ ls) ->
  forall l b t, ALeecherStart l b t ∈ lg -> l ∈ ls'.
Proof. intros Hsub H l b t Hin. apply Hsub. exact (H l b t Hin). Qed.

Ltac not_start := intros ? ? ? [=].

Lemma svc_inv_handle (p : Provider) (ev : Event) (s s' : St) (r : Outcome unit) :
  svc_inv s -> handle p ev s = (s', r) -> svc_inv s'.
Proof.
  intros [(d & Hd & Hdi) [Hidle Hreg]].
  destruct s as [stt till cur ls lg]; simpl in *.
  unfold handle. unfold bind at 1, get at 1, bind at 1, emit at 1, modify at 1.
  cbn [_state _catchup_till _current_ledger _leechers out_log].
  assert (Hd1 : done_monitor true (lg ++ [AHandle stt ev]) = done_step d (AHandle stt ev))
    by (rewrite done_monitor_snoc, Hd; reflexivity).
  assert (Hreg1 : forall l b t, ALeecherStart l b t ∈ lg ++ [AHandle stt ev] -> l ∈ ls).
  { apply starts_in_app; [exact Hreg|]. repeat constructor. not_start. }
  destruct ev as [l|b|lid n].
  - unfold register_ledger. unfold_monad. simpl.
    case_bool_decide as Hin; intros H; injection H as <- _;
      (split; [exists d; split; [simpl; rewrite Hd1; reflexivity | exact Hdi] | split; [exact Hidle|]]);
      simpl.
    + exact Hreg1.
    + apply (starts_in_mono _ ls); [set_solver | exact Hreg1].
  - rewrite (start_eq p). simpl.
    assert (Hm : done_monitor true ((lg ++ [AHandle stt (EvStart b)]) ++
                                    map ALeecherReset ls) = Some false)
      by (rewrite done_monitor_app, Hd1; simpl; apply done_monitor_resets).
    case_bool_decide as HA; intros H; injection H as <- _;
      (split; [|split; [discriminate|]]); simpl.
    + exists false. split; [|discriminate].
      rewrite app_assoc, done_monitor_snoc, Hm. reflexivity.
    + rewrite app_assoc. apply starts_in_app; [apply starts_in_app; [exact Hreg1|]|].
      * apply Forall_forall. intros x Hx l b' t ->.
        apply list_elem_of_In, in_map_iff in Hx as (y & [=] & _).
      * repeat constructor. intros l b' t [= <- _ _]. exact HA.
    + exists false. split; [exact Hm | discriminate].
    + apply starts_in_app; [exact Hreg1|].
      apply Forall_forall. intros x Hx l b' t ->.
      apply list_elem_of_In, in_map_iff in Hx as (y & [=] & _).
  - unfold on_ledger_catchup_complete. unfold bind at 1, get at 1.
    cbn [_state].
    assert (Hnid : stt <> Idle -> d = false)
      by (intros Hs; destruct d; [exfalso; exact (Hs (Hdi eq_refl))|reflexivity]).
    destruct stt.
    + unfold ret. intros H; injection H as <- _. split; [|split]; simpl.
      * exists d. rewrite Hd1. auto.
      * exact Hidle.
      * exact Hreg1.
    + assert (d = false) as -> by (apply Hnid; discriminate).
      unfold on_audit_synced. destruct (Z.eqb lid AUDIT_LEDGER_ID).
      * unfold bind at 1. destruct (calc_catchup_till p _) as [s2 [u|e]] eqn:Ec;
          apply calc_frame in Ec as (Hst2 & Hl2 & Hls2 & Hc2); simpl in Hst2, Hl2, Hls2, Hc2.
        -- unfold bind at 1, set_state at 1, modify at 1.
           intros H. apply catchup_ledger_full in H as (Hst3 & Hc3 & Hls3 & Hlog3).
           simpl in Hst3, Hc3, Hls3, Hlog3.
           split; [|split; [rewrite Hst3; discriminate|]].
           ++ exists false. split; [|discriminate].
              destruct Hlog3 as [Hl3 | (_ & b & t & Hl3)]; rewrite Hl3, Hl2;
                [|rewrite done_monitor_snoc]; rewrite Hd1; reflexivity.
           ++ rewrite Hls3, Hls2.
              destruct Hlog3 as [Hl3 | (HP & b & t & Hl3)]; rewrite Hl3, Hl2; [exact Hreg1|].
              apply starts_in_app; [exact Hreg1|]. rewrite Hls2 in HP.
              repeat constructor. intros l b' t' [= <- _ _]. exact HP.
        -- intros H; injection H as <- _.
           split; [|split; [rewrite Hst2; discriminate|]].
           ++ exists false. rewrite Hl2, Hd1. split; [reflexivity | discriminate].
           ++ rewrite Hls2, Hl2. exact Hreg1.
      * unfold ret. intros H; injection H as <- _. split; [|split]; simpl.
        -- exists false. rewrite Hd1. split; [reflexivity | discriminate].
        -- discriminate.
        -- exact Hreg1.
    + assert (d = false) as -> by (apply Hnid; discriminate).
      unfold on_pool_synced. destruct (Z.eqb lid POOL_LEDGER_ID).
      * unfold bind at 1, set_state at 1, modify at 1.
        intros H. apply sync_next_full in H as (Hls3 & [[Hst3 Hlog3] | (Hst3 & Hc3 & Hl3)]);
          simpl in *.
        -- split; [|split; [rewrite Hst3; discriminate|]].
           ++ exists false. split; [|discriminate].
              destruct Hlog3 as [Hl3 | (m & b & t & _ & Hl3)]; rewrite Hl3;
                [|rewrite done_monitor_snoc]; rewrite Hd1; reflexivity.
           ++ rewrite Hls3.
              destruct Hlog3 as [Hl3 | (m & b & t & Hm & Hl3)]; rewrite Hl3; [exact Hreg1|].
              apply starts_in_app; [exact Hreg1|].
              repeat constructor. intros l b' t' [= <- _ _]. exact Hm.
        -- split; [|split; [intros _; exact Hc3|]].
           ++ exists true. split; [|intros _; exact Hst3].
              rewrite Hl3, done_monitor_snoc, Hd1. reflexivity.
           ++ rewrite Hls3, Hl3. apply starts_in_app; [exact Hreg1|].
              repeat constructor. not_start.
      * unfold ret. intros H; injection H as <- _. split; [|split]; simpl.
        -- exists false. rewrite Hd1. split; [reflexivity | discriminate].
        -- discriminate.
        -- exact Hreg1.
    + assert (d = false) as -> by (apply Hnid; discriminate).
      unfold on_other_synced. unfold bind at 1, get at 1.
      case_bool_decide as Hcur.
      * intros H. apply sync_next_full in H as (Hls3 & [[Hst3 Hlog3] | (Hst3 & Hc3 & Hl3)]);
          simpl in *.
        -- split; [|split; [rewrite Hst3; discriminate|]].
           ++ exists false. split; [|discriminate].
              destruct Hlog3 as [Hl3 | (m & b & t & _ & Hl3)]; rewrite Hl3;
                [|rewrite done_monitor_snoc]; rewrite Hd1; reflexivity.
           ++ rewrite Hls3.
              destruct Hlog3 as [Hl3 | (m & b & t & Hm & Hl3)]; rewrite Hl3; [exact Hreg1|].
              apply starts_in_app; [exact Hreg1|].
              repeat constructor. intros l b' t' [= <- _ _]. exact Hm.
        -- split; [|split; [intros _; exact Hc3|]].
           ++ exists true. split; [|intros _; exact Hst3].
              rewrite Hl3, done_monitor_snoc, Hd1. reflexivity.
           ++ rewrite Hls3, Hl3. apply starts_in_app; [exact Hreg1|].
              repeat constructor. not_start.
      * unfold ret. intros H; injection H as <- _. split; [|split]; simpl.
        -- exists false. rewrite Hd1. split; [reflexivity | discriminate].
        -- discriminate.
        -- exact Hreg1.
Qed.

Lemma svc_inv_raised (s : St) (e : Exc) :
  svc_inv s ->
  svc_inv (mkSt (_state s) (_catchup_till s) (_current_ledger s)
                (_leechers s) (out_log s ++ [ARaised e])).
Proof.
  intros [(d & Hd & Hdi) [Hidle Hreg]]. split; [|split]; simpl.
  - exists d. rewrite done_monitor_snoc, Hd. auto.
  - exact Hidle.
  - apply starts_in_app; [exact Hreg|]. repeat constructor. not_start.
Qed.

Lemma svc_inv_run (p : Provider) (evs : list Event) (s : St) :
  svc_inv s -> svc_inv (run p evs s).
Proof.
  revert s. induction evs as [|ev evs IH]; intros s Hs; simpl; [exact Hs|].
  apply IH. unfold run_event.
  destruct (handle p ev s) as [s' [u|e]] eqn:E.
  - exact (svc_inv_handle p ev s s' _ Hs E).
  - apply svc_inv_raised. exact (svc_inv_handle p ev s s' _ Hs E).
Qed.

Lemma svc_inv_init : svc_inv init_st.
Proof.
  split; [|split].
  - exists true. split; reflexivity.
  - reflexivity.
  - intros l b t Hin. simpl in Hin. set_solver.
Qed.

(** ** A full round *)

Lemma calc_outcome_indep (p : Provider) (s1 s2 : St) :
  snd (calc_catchup_till p s1) = snd (calc_catchup_till p s2).
Proof.
  unfold calc_catchup_till. destruct (get_last_committed_txn p) as [t|]; [|reflexivity].
  revert s1 s2. induction (ledgerSize t) as [|[lid fs] es IH]; intros s1 s2;
    cbn [mapM_]; [reflexivity|].
  unfold bind. rewrite !calc_one_eq.
  destruct (ledger_size p lid) as [sz|]; [|reflexivity].
  destruct (resolve_final_hash p t lid fs sz); [apply IH | reflexivity].
Qed.

Lemma catchup_ledger_ok (l : Z) (s : St) :
  l ∈ _leechers s ->
  catchup_ledger l s =
  (mkSt (_state s) (_catchup_till s) (_current_ledger s) (_leechers s)
        (out_log s ++ [start_action s l]), Ok tt).
Proof.
  destruct s as [stt till cur ls lg]. simpl. intros Hin.
  unfold catchup_ledger, leecher, start_action. unfold_monad. simpl.
  case_bool_decide as Hl; [|contradiction]. cbn [_catchup_till].
  destruct (till !! l); reflexivity.
Qed.

Lemma get_next_ledger_first (keys : list Z) :
  NoDup keys -> AUDIT_LEDGER_ID ∈ keys -> POOL_LEDGER_ID ∈ keys ->
  get_next_ledger keys None =
  Ok (head (filter (fun x => x <> AUDIT_LEDGER_ID /\ x <> POOL_LEDGER_ID) keys)).
Proof.
  intros Hnd HA HP. destruct (get_next_ledger_others keys Hnd HA HP) as (others & -> & Hg).
  rewrite Hg. destruct (filter _ keys); reflexivity.
Qed.

Lemma others_in (keys : list Z) (o : Z) :
  o ∈ filter (fun x => x <> AUDIT_LEDGER_ID /\ x <> POOL_LEDGER_ID) keys -> o ∈ keys.
Proof. intros H. apply list_elem_of_filter in H. tauto. Qed.

(** [_sync_next_ledger] with no current ledger starts the first other
    ledger, or finishes the round when there is none. *)
Lemma sync_next_first (s : St) :
  NoDup (_leechers s) -> AUDIT_LEDGER_ID ∈ _leechers s -> POOL_LEDGER_ID ∈ _leechers s ->
  _current_ledger s = None ->
  sync_next_ledger s =
  match filter (fun x => x <> AUDIT_LEDGER_ID /\ x <> POOL_LEDGER_ID) (_leechers s) with
  | [] => (mkSt Idle (_catchup_till s) None (_leechers s)
                (out_log s ++ [ANodeCatchupComplete]), Ok tt)
  | o :: _ => (mkSt (_state s) (_catchup_till s) (Some o) (_leechers s)
                    (out_log s ++ [start_action s o]), Ok tt)
  end.
Proof.
  intros Hnd HA HP Hc.
  pose proof (get_next_ledger_first _ Hnd HA HP) as Hg.
  assert (Hin : forall o rest, filter (fun x => x <> AUDIT_LEDGER_ID /\ x <> POOL_LEDGER_ID)
                                 (_leechers s) = o :: rest -> o ∈ _leechers s).
  { intros o rest Ho. apply others_in. rewrite Ho. left. }
  destruct s as [stt till cur ls lg]; simpl in *. subst cur.
  unfold sync_next_ledger. unfold bind at 1, get at 1, bind at 1, lift at 1.
  cbn [_leechers _current_ledger]. rewrite Hg.
  destruct (filter _ ls) as [|o rest] eqn:Ho; simpl.
  - unfold_monad. reflexivity.
  - unfold bind at 1, set_current_ledger at 1, modify at 1. simpl.
    rewrite catchup_ledger_ok by exact (Hin o rest eq_refl). reflexivity.
Qed.

(** A completion of the current other ledger, in [SyncingOthers]. *)
Lemma handle_other_step (p : Provider) (s : St) (c n : Z) pre rest :
  NoDup (_leechers s) -> AUDIT_LEDGER_ID ∈ _leechers s -> POOL_LEDGER_ID ∈ _leechers s ->
  filter (fun x => x <> AUDIT_LEDGER_ID /\ x <> POOL_LEDGER_ID) (_leechers s) =
    pre ++ c :: rest ->
  _state s = SyncingOthers -> _current_ledger s = Some c ->
  handle p (EvCatchupComplete c n) s =
  match rest with
  | nxt :: _ =>
      (mkSt SyncingOthers (_catchup_till s) (Some nxt) (_leechers s)
         (out_log s ++ [AHandle SyncingOthers (EvCatchupComplete c n); start_action s nxt]),
       Ok tt)
  | [] =>
      (mkSt Idle (_catchup_till s) None (_leechers s)
         (out_log s ++ [AHandle SyncingOthers (EvCatchupComplete c n); ANodeCatchupComplete]),
       Ok tt)
  end.
Proof.
  intros Hnd HA HP Hoth Hst Hcur.
  pose proof (get_next_ledger_after _ c pre rest Hnd HA HP Hoth) as Hn.
  assert (Hrest : forall nxt post, rest = nxt :: post -> nxt ∈ _leechers s).
  { intros nxt post ->. apply others_in. rewrite Hoth. set_solver. }
  destruct s as [stt till cur ls lg]; simpl in *. subst stt cur.
  destruct rest as [|nxt post].
  - unfold handle, on_ledger_catchup_complete, on_other_synced, sync_next_ledger.
    unfold_monad. simpl.
    rewrite bool_decide_true by reflexivity.
    cbn [_leechers _current_ledger _catchup_till]. rewrite Hn. simpl.
    rewrite <- app_assoc. reflexivity.
  - pose proof (Hrest nxt post eq_refl) as Hnxt.
    unfold handle, on_ledger_catchup_complete, on_other_synced, sync_next_ledger,
      catchup_ledger, leecher, start_action. unfold_monad. simpl.
    rewrite bool_decide_true by reflexivity.
    cbn [_leechers _current_ledger _catchup_till]. rewrite Hn. simpl.
    rewrite bool_decide_true by exact Hnxt. simpl.
    destruct (till !! nxt); simpl; rewrite <- app_assoc; reflexivity.
Qed.

Lemma started_ids_app (l1 l2 : list Action) :
  started_ids (l1 ++ l2) = started_ids l1 ++ started_ids l2.
Proof. unfold started_ids. apply omap_app. Qed.

Lemma node_completions_app (l1 l2 : list Action) :
  node_completions (l1 ++ l2) = (node_completions l1 + node_completions l2)%nat.
Proof. unfold node_completions. rewrite List.filter_app, length_app. reflexivity. Qed.

Lemma started_ids_resets (ls : list Z) : started_ids (map ALeecherReset ls) = [].
Proof. induction ls as [|x ls IH]; [reflexivity | exact IH]. Qed.

Lemma started_ids_start_action (s : St) (l : Z) : started_ids [start_action s l] = [l].
Proof. unfold start_action. destruct (_catchup_till s !! l); reflexivity. Qed.

Lemma node_completions_start_action (s : St) (l : Z) : node_completions [start_action s l] = 0%nat.
Proof. unfold start_action. destruct (_catchup_till s !! l); reflexivity. Qed.

Lemma run_cons (p : Provider) (ev : Event) (evs : list Event) (s : St) :
  run p (ev :: evs) s = run p evs (run_event p s ev).
Proof. reflexivity. Qed.

(** The walk over the other ledgers, from the current one to the last. *)
Lemma walk_others (p : Provider) (n : Z) rest :
  forall pre c s,
  NoDup (_leechers s) -> AUDIT_LEDGER_ID ∈ _leechers s -> POOL_LEDGER_ID ∈ _leechers s ->
  filter (fun x => x <> AUDIT_LEDGER_ID /\ x <> POOL_LEDGER_ID) (_leechers s) =
    pre ++ c :: rest ->
  _state s = SyncingOthers -> _current_ledger s = Some c ->
  let s' := run p (map (fun l => EvCatchupComplete l n) (c :: rest)) s in
  _state s' = Idle /\ _current_ledger s' = None /\ _leechers s' = _leechers s /\
  exists l, out_log s' = out_log s ++ l /\ started_ids l = rest /\ node_completions l = 1%nat.
Proof.
  induction rest as [|nxt rest IH]; intros pre c s Hnd HA HP Hoth Hst Hcur s'; subst s';
    rewrite map_cons, run_cons; unfold run_event;
    rewrite (handle_other_step p s c n pre _ Hnd HA HP Hoth Hst Hcur).
  - simpl. split_and!; try reflexivity.
    eexists. split; [reflexivity | split; reflexivity].
  - set (s1 := mkSt SyncingOthers (_catchup_till s) (Some nxt) (_leechers s)
                 (out_log s ++ [AHandle SyncingOthers (EvCatchupComplete c n);
                                start_action s nxt])).
    destruct (IH (pre ++ [c]) nxt s1) as (H1 & H2 & H3 & l & Hl & Hst' & Hnc);
      try exact Hnd; try exact HA; try exact HP; try reflexivity.
    { simpl. rewrite Hoth, <- app_assoc. reflexivity. }
    split_and!; [exact H1 | exact H2 | exact H3|].
    exists ([AHandle SyncingOthers (EvCatchupComplete c n); start_action s nxt] ++ l).
    split_and!.
    + rewrite Hl. simpl. rewrite <- app_assoc. reflexivity.
    + rewrite started_ids_app, Hst'.
      change [AHandle SyncingOthers (EvCatchupComplete c n); start_action s nxt]
        with ([AHandle SyncingOthers (EvCatchupComplete c n)] ++ [start_action s nxt]).
      rewrite started_ids_app, started_ids_start_action. reflexivity.
    + rewrite node_completions_app, Hnc.
      change [AHandle SyncingOthers (EvCatchupComplete c n); start_action s nxt]
        with ([AHandle SyncingOthers (EvCatchupComplete c n)] ++ [start_action s nxt]).
      rewrite node_completions_app, node_completions_start_action. reflexivity.
Qed.

Lemma start_step (p : Provider) (s : St) (b : bool) :
  AUDIT_LEDGER_ID ∈ _leechers s ->
  run_event p s (EvStart b) =
  mkSt SyncingAudit ∅ (_current_ledger s) (_leechers s)
       ((out_log s ++ [AHandle (_state s) (EvStart b)]) ++
        map ALeecherReset (_leechers s) ++ [ALeecherStart AUDIT_LEDGER_ID b None]).
Proof.
  intros HA. unfold run_event. rewrite handle_start_eq, (start_eq p). simpl.
  rewrite bool_decide_true by exact HA. reflexivity.
Qed.

Lemma audit_step (p : Provider) (s s2 : St) (n : Z) :
  _state s = SyncingAudit -> POOL_LEDGER_ID ∈ _leechers s ->
  calc_catchup_till p
    (mkSt SyncingAudit (_catchup_till s) (_current_ledger s) (_leechers s)
          (out_log s ++ [AHandle SyncingAudit (EvCatchupComplete AUDIT_LEDGER_ID n)]))
    = (s2, Ok tt) ->
  run_event p s (EvCatchupComplete AUDIT_LEDGER_ID n) =
  mkSt SyncingPool (_catchup_till s2) (_current_ledger s) (_leechers s)
       (out_log s ++ [AHandle SyncingAudit (EvCatchupComplete AUDIT_LEDGER_ID n);
                      start_action s2 POOL_LEDGER_ID]).
Proof.
  intros Hst HP Hc. pose proof (calc_frame _ _ _ _ Hc) as (F1 & F2 & F3 & F4).
  destruct s as [stt till cur ls lg]; simpl in *. subst stt.
  unfold run_event.
  change (handle p (EvCatchupComplete AUDIT_LEDGER_ID n) (mkSt SyncingAudit till cur ls lg))
    with (bind (calc_catchup_till p)
               (fun _ => set_state SyncingPool ;;; catchup_ledger POOL_LEDGER_ID)
               (mkSt SyncingAudit till cur ls
                     (lg ++ [AHandle SyncingAudit (EvCatchupComplete AUDIT_LEDGER_ID n)]))).
  unfold bind at 1. rewrite Hc. unfold bind at 1, set_state at 1, modify at 1.
  rewrite catchup_ledger_ok by (simpl; rewrite F3; exact HP).
  destruct s2 as [stt2 till2 cur2 ls2 lg2]; simpl in *. subst.
  rewrite <- app_assoc. reflexivity.
Qed.

Lemma pool_step (p : Provider) (s : St) (n : Z) :
  _state s = SyncingPool -> NoDup (_leechers s) ->
  AUDIT_LEDGER_ID ∈ _leechers s -> POOL_LEDGER_ID ∈ _leechers s ->
  _current_ledger s = None ->
  run_event p s (EvCatchupComplete POOL_LEDGER_ID n) =
  match filter (fun x => x <> AUDIT_LEDGER_ID /\ x <> POOL_LEDGER_ID) (_leechers s) with
  | [] => mkSt Idle (_catchup_till s) None (_leechers s)
              (out_log s ++ [AHandle SyncingPool (EvCatchupComplete POOL_LEDGER_ID n);
                             ANodeCatchupComplete])
  | o :: _ => mkSt SyncingOthers (_catchup_till s) (Some o) (_leechers s)
                  (out_log s ++ [AHandle SyncingPool (EvCatchupComplete POOL_LEDGER_ID n);
                                 start_action s o])
  end.
Proof.
  intros Hst Hnd HA HP Hc.
  destruct s as [stt till cur ls lg]; simpl in *. subst stt cur.
  unfold run_event.
  change (handle p (EvCatchupComplete POOL_LEDGER_ID n) (mkSt SyncingPool till None ls lg))
    with (sync_next_ledger
            (mkSt SyncingOthers till None ls
                  (lg ++ [AHandle SyncingPool (EvCatchupComplete POOL_LEDGER_ID n)]))).
  rewrite sync_next_first by (simpl; assumption || reflexivity). simpl.
  destruct (filter _ ls); simpl; rewrite <- app_assoc; reflexivity.
Qed.

Lemma node_completions_resets (ls : list Z) : node_completions (map ALeecherReset ls) = 0%nat.
Proof. induction ls as [|x ls IH]; [reflexivity | exact IH]. Qed.

Lemma run_app (p : Provider) (evs1 evs2 : list Event) (s : St) :
  run p (evs1 ++ evs2) s = run p evs2 (run p evs1 s).
Proof. unfold run. apply fold_left_app. Qed.

(** X2: a full round from a service whose reserved ledgers are registered
    (each id once) and that has no current ledger: [start], the Audit
    completion, the Pool completion and the completion of each other
    ledger in registration order bring it back to [Idle] with no current
    ledger; on the way it starts Audit, Pool and then the other ledgers
    in registration order, and reports [NodeCatchupComplete] exactly
    once, provided the target derivation does not raise. *)
Theorem X2_full_round (p : Provider) (s : St) (b : bool) (n : Z) :
  NoDup (_leechers s) -> AUDIT_LEDGER_ID ∈ _leechers s -> POOL_LEDGER_ID ∈ _leechers s ->
  _current_ledger s = None -> snd (calc_catchup_till p init_st) = Ok tt ->
  let others := filter (fun x => x <> AUDIT_LEDGER_ID /\ x <> POOL_LEDGER_ID)
                       (_leechers s) in
  let s' := run p ([EvStart b; EvCatchupComplete AUDIT_LEDGER_ID n;
                    EvCatchupComplete POOL_LEDGER_ID n] ++
                   map (fun l => EvCatchupComplete l n) others) s in
  _state s' = Idle /\ _current_ledger s' = None /\ _leechers s' = _leechers s /\
  exists l, out_log s' = out_log s ++ l /\
            started_ids l = AUDIT_LEDGER_ID :: POOL_LEDGER_ID :: others /\
            node_completions l = 1%nat.
Proof.
  intros Hnd HA HP Hcur Hcalc others s'. subst s'.
  rewrite run_app, !run_cons. rewrite (start_step p s b HA).
  set (s1 := mkSt SyncingAudit ∅ (_current_ledger s) (_leechers s)
               ((out_log s ++ [AHandle (_state s) (EvStart b)]) ++
                map ALeecherReset (_leechers s) ++ [ALeecherStart AUDIT_LEDGER_ID b None])).
  destruct (calc_catchup_till p
              (mkSt SyncingAudit (_catchup_till s1) (_current_ledger s1) (_leechers s1)
                    (out_log s1 ++ [AHandle SyncingAudit
                                      (EvCatchupComplete AUDIT_LEDGER_ID n)])))
    as [s2 r2] eqn:Ec.
  assert (r2 = Ok tt) as ->.
  { rewrite <- Hcalc, (calc_outcome_indep p init_st
      (mkSt SyncingAudit (_catchup_till s1) (_current_ledger s1) (_leechers s1)
            (out_log s1 ++ [AHandle SyncingAudit (EvCatchupComplete AUDIT_LEDGER_ID n)]))).
    rewrite Ec. reflexivity. }
  rewrite (audit_step p s1 s2 n eq_refl HP Ec).
  rewrite pool_step by (simpl; assumption || reflexivity). simpl.
  fold others.
  destruct others as [|o rest] eqn:Ho.
  - simpl. split_and!; try reflexivity.
    exists ([AHandle (_state s) (EvStart b)] ++ map ALeecherReset (_leechers s) ++
            [ALeecherStart AUDIT_LEDGER_ID b None] ++
            [AHandle SyncingAudit (EvCatchupComplete AUDIT_LEDGER_ID n)] ++
            [start_action s2 POOL_LEDGER_ID] ++
            [AHandle SyncingPool (EvCatchupComplete POOL_LEDGER_ID n)] ++
            [ANodeCatchupComplete]).
    split_and!.
    + subst s1. simpl. rewrite <- !app_assoc. reflexivity.
    + rewrite !started_ids_app, started_ids_resets, started_ids_start_action. reflexivity.
    + rewrite !node_completions_app, node_completions_resets,
        node_completions_start_action. reflexivity.
  - match goal with |- context [run p _ ?X] => set (s3 := X) end.
    destruct (walk_others p n rest [] o s3) as (H1 & H2 & H3 & l & Hl & Hst & Hnc);
      try exact Hnd; try exact HA; try exact HP; try reflexivity.
    { simpl. exact Ho. }
    split_and!; [exact H1 | exact H2 | exact H3|].
    exists ([AHandle (_state s) (EvStart b)] ++ map ALeecherReset (_leechers s) ++
            [ALeecherStart AUDIT_LEDGER_ID b None] ++
            [AHandle SyncingAudit (EvCatchupComplete AUDIT_LEDGER_ID n)] ++
            [start_action s2 POOL_LEDGER_ID] ++
            [AHandle SyncingPool (EvCatchupComplete POOL_LEDGER_ID n)] ++
            [start_action s2 o] ++ l).
    split_and!.
    + rewrite Hl. subst s3 s1. simpl. rewrite <- !app_assoc. reflexivity.
    + rewrite !started_ids_app, started_ids_resets, !started_ids_start_action, Hst.
      reflexivity.
    + rewrite !node_completions_app, node_completions_resets,
        !node_completions_start_action, Hnc. reflexivity.
Qed.

(** ** Runs from construction *)


Lemma done_monitor_false (l : list Action) :
  done_monitor true l = Some false ->
  exists pre st b post, l = pre ++ AHandle st (EvStart b) :: post /\
                        ANodeCatchupComplete ∉ post.
Proof.
  induction l as [|x l IH] using rev_ind; [discriminate|].
  rewrite done_monitor_snoc. destruct (done_monitor true l) as [d|] eqn:Hd; [|discriminate].
  destruct x as [st ev| lid | lid b t | | e]; simpl.
  - destruct ev as [l0| b | l0 n0]; intros H.
    + injection H as ->. destruct (IH eq_refl) as (pre & st' & b & post & -> & Hn).
      exists pre, st', b, (post ++ [AHandle st (EvRegister l0)]).
      rewrite <- app_assoc. split; [reflexivity|]. set_solver.
    + exists l, st, b, []. split; [reflexivity | set_solver].
    + injection H as ->. destruct (IH eq_refl) as (pre & st' & b & post & -> & Hn).
      exists pre, st', b, (post ++ [AHandle st (EvCatchupComplete l0 n0)]).
      rewrite <- app_assoc. split; [reflexivity|]. set_solver.
  - intros H. injection H as ->. destruct (IH eq_refl) as (pre & st' & b & post & -> & Hn).
    exists pre, st', b, (post ++ [ALeecherReset lid]).
    rewrite <- app_assoc. split; [reflexivity|]. set_solver.
  - intros H. injection H as ->. destruct (IH eq_refl) as (pre & st' & b' & post & -> & Hn).
    exists pre, st', b', (post ++ [ALeecherStart lid b t]).
    rewrite <- app_assoc. split; [reflexivity|]. set_solver.
  - destruct d; discriminate.
  - intros H. injection H as ->. destruct (IH eq_refl) as (pre & st' & b & post & -> & Hn).
    exists pre, st', b, (post ++ [ARaised e]).
    rewrite <- app_assoc. split; [reflexivity|]. set_solver.
Qed.

(** X3: in a run from construction, every [NodeCatchupComplete] on the
    output follows a handled [start()] with no other
    [NodeCatchupComplete] since: each round is reported complete at most
    once. *)
Theorem X3_completion_after_start (p : Provider) (s : St) pre post :
  reachable p s -> out_log s = pre ++ ANodeCatchupComplete :: post ->
  exists pre1 st b pre2, pre = pre1 ++ AHandle st (EvStart b) :: pre2 /\
                         ANodeCatchupComplete ∉ pre2.
Proof.
  intros [evs ->] Hlog.
  destruct (svc_inv_run p evs init_st svc_inv_init) as [(d & Hd & _) _].
  rewrite Hlog, done_monitor_app in Hd.
  destruct (done_monitor true pre) as [[|]|] eqn:Hp; simpl in Hd; try discriminate.
  exact (done_monitor_false pre Hp).
Qed.

(** X4: a service reached from construction that is [Idle] has no
    current ledger. *)
Theorem X4_idle_no_current (p : Provider) (s : St) :
  reachable p s -> _state s = Idle -> _current_ledger s = None.
Proof.
  intros [evs ->]. destruct (svc_inv_run p evs init_st svc_inv_init) as [_ [H _]]. exact H.
Qed.

(** X5: in a run from construction, only registered leechers are
    started. *)
Theorem X5_started_registered (p : Provider) (s : St) (l : Z) b t :
  reachable p s -> ALeecherStart l b t ∈ out_log s -> l ∈ _leechers s.
Proof.
  intros [evs ->]. destruct (svc_inv_run p evs init_st svc_inv_init) as [_ [_ H]]. apply H.
Qed.

(** X6: when the target derivation raises, the Audit completion raises
    the same exception, leaves the service in [SyncingAudit] with its
    current ledger and registry, and puts nothing on the log: the Pool
    ledger is not started. *)
Theorem X6_audit_calc_failure (p : Provider) (s : St) (n : Z) (e : Exc) :
  _state s = SyncingAudit -> snd (calc_catchup_till p init_st) = Raise e ->
  exists s', handle p (EvCatchupComplete AUDIT_LEDGER_ID n) s = (s', Raise e) /\
    _state s' = SyncingAudit /\ _current_ledger s' = _current_ledger s /\
    _leechers s' = _leechers s /\
    out_log s' = out_log s ++ [AHandle SyncingAudit (EvCatchupComplete AUDIT_LEDGER_ID n)].
Proof.
  intros Hst Hcalc. destruct s as [stt till cur ls lg]; simpl in *. subst stt.
  change (handle p (EvCatchupComplete AUDIT_LEDGER_ID n) (mkSt SyncingAudit till cur ls lg))
    with (bind (calc_catchup_till p)
               (fun _ => set_state SyncingPool ;;; catchup_ledger POOL_LEDGER_ID)
               (mkSt SyncingAudit till cur ls
                     (lg ++ [AHandle SyncingAudit (EvCatchupComplete AUDIT_LEDGER_ID n)]))).
  unfold bind at 1.
  destruct (calc_catchup_till p (mkSt SyncingAudit till cur ls
              (lg ++ [AHandle SyncingAudit (EvCatchupComplete AUDIT_LEDGER_ID n)])))
    as [s2 r2] eqn:Ec.
  pose proof (calc_outcome_indep p init_st (mkSt SyncingAudit till cur ls
              (lg ++ [AHandle SyncingAudit (EvCatchupComplete AUDIT_LEDGER_ID n)]))) as Hi.
  rewrite Hcalc, Ec in Hi. simpl in Hi. subst r2.
  destruct (calc_frame _ _ _ _ Ec) as (F1 & F2 & F3 & F4).
  exists s2. simpl in *. split_and!; [reflexivity | exact F1 | exact F4 | exact F3 | exact F2].
Qed.

(** ** Instances *)

Lemma X2_witness :
  let s := run ex_provider ex_register init_st in
  let others := filter (fun x => x <> AUDIT_LEDGER_ID /\ x <> POOL_LEDGER_ID)
                       (_leechers s) in
  let s' := run ex_provider ([EvStart true; EvCatchupComplete AUDIT_LEDGER_ID 0;
                              EvCatchupComplete POOL_LEDGER_ID 0] ++
                             map (fun l => EvCatchupComplete l 0) others)%Z s in
  _state s' = Idle /\ _current_ledger s' = None /\ _leechers s' = _leechers s /\
  exists l, out_log s' = out_log s ++ l /\
            started_ids l = AUDIT_LEDGER_ID :: POOL_LEDGER_ID :: others /\
            node_completions l = 1%nat.
Proof.
  intros s others s'. apply (X2_full_round ex_provider s true 0%Z).
  - apply (bool_decide_unpack _). vm_compute. reflexivity.
  - apply (bool_decide_unpack _). vm_compute. reflexivity.
  - apply (bool_decide_unpack _). vm_compute. reflexivity.
  - vm_compute. reflexivity.
  - vm_compute. reflexivity.
Defined.

Definition ex_done_log : list Action :=
  out_log (run ex_provider (ex_register ++ ex_round ++
                            [EvCatchupComplete 1 0; EvCatchupComplete 2 0])%Z init_st).

Lemma X3_witness :
  let s := run ex_provider (ex_register ++ ex_round ++
                            [EvCatchupComplete 1 0; EvCatchupComplete 2 0])%Z init_st in
  exists pre1 st b pre2, take 17 ex_done_log = pre1 ++ AHandle st (EvStart b) :: pre2 /\
                         ANodeCatchupComplete ∉ pre2.
Proof.
  intros s. apply (X3_completion_after_start ex_provider s _ (drop 18 ex_done_log)).
  - eexists. reflexivity.
  - vm_compute. reflexivity.
Defined.

Lemma X4_witness :
  let s := run ex_provider (ex_register ++ ex_round ++
                            [EvCatchupComplete 1 0; EvCatchupComplete 2 0])%Z init_st in
  _current_ledger s = None.
Proof.
  intros s. apply (X4_idle_no_current ex_provider s).
  - eexists. reflexivity.
  - vm_compute. reflexivity.
Defined.

Lemma X5_witness :
  let s := run ex_provider (ex_register ++ ex_round)%Z init_st in
  (1%Z) ∈ _leechers s.
Proof.
  intros s. apply (X5_started_registered ex_provider s 1%Z false (Some ex_till_1)).
  - eexists. reflexivity.
  - apply list_elem_of_In. vm_compute. repeat (first [left; reflexivity | right]).
Defined.

Lemma X6_witness :
  let s := mkSt SyncingAudit ∅ None [AUDIT_LEDGER_ID; POOL_LEDGER_ID] [] in
  exists s', handle dangling_provider (EvCatchupComplete AUDIT_LEDGER_ID 0) s =
             (s', Raise RuntimeError) /\
    _state s' = SyncingAudit /\ _current_ledger s' = _current_ledger s /\
    _leechers s' = _leechers s /\
    out_log s' = out_log s ++ [AHandle SyncingAudit (EvCatchupComplete AUDIT_LEDGER_ID 0)].
Proof.
  intros s. apply (X6_audit_calc_failure dangling_provider s 0%Z RuntimeError).
  - reflexivity.
  - vm_compute. reflexivity.
Defined.

Lemma X7_witness :
  calc_committed ex_pp2 [ex_vc1; ex_vc_full] = inr [ex_e1; ex_e2] /\
  (length [ex_e1; ex_e2] <= 49)%nat /\
  (forall i b, [ex_e1; ex_e2] !! i = Some b ->
     ex_pp2 b = (Z.of_nat i + 1)%Z /\ agreed ex_pp2 [ex_vc1; ex_vc_full] (Z.of_nat i + 1) b) /\
  ((length [ex_e1; ex_e2] < 49)%nat ->
   forall b, ~ agreed ex_pp2 [ex_vc1; ex_vc_full] (Z.of_nat (length [ex_e1; ex_e2]) + 1) b).
Proof.
  assert (H : calc_committed ex_pp2 [ex_vc1; ex_vc_full] = inr [ex_e1; ex_e2])
    by (vm_compute; reflexivity).
  split; [exact H | exact (X7_calc_committed_result ex_pp2 _ _ H)].
Defined.

Lemma X9_witness :
  calc_committed ex_pp2 [ex_vc1; ex_vc_other] = inl AssertionError /\
  exists i, (1 <= i <= 49)%nat /\ disagree ex_pp2 [ex_vc1; ex_vc_other] (Z.of_nat i).
Proof.
  assert (H : calc_committed ex_pp2 [ex_vc1; ex_vc_other] = inl AssertionError)
    by (vm_compute; reflexivity).
  split; [exact H | exact (X9_calc_committed_assertion ex_pp2 _ H)].
Defined.

Lemma X10_witness : exists c, calc_committed ex_pp2 [ex_vc1; ex_vc_full] = inr c.
Proof.
  apply X10_calc_committed_total; [discriminate|].
  intros i _. apply (no_disagree_same_preprepared ex_pp2 _ [ex_e1; ex_e2; ex_e3]).
  intros v Hv. apply list_elem_of_In in Hv. simpl in Hv.
  destruct Hv as [<- | [<- | []]]; reflexivity.
Defined.

